(** * UCXUtils: requests, workers and endpoints over the UCP transport

    A shallow embedding of [torch/csrc/distributed/c10d/ucc/UCXUtils.hpp].

    The header defines, inline, the completion record [UCPRequest::Data]
    with its [reset], the accessors [UCPRequest::status] and
    [UCPRequest::info], the constructor of [UCPRequest], the error macros
    [TORCH_UCX_CHECK] and [TORCH_UCX_CHECK_PTR], [UCPWorker::progress] and
    the destructor of [UCPWorker].  Those are translated from the header.

    Everything the header only declares (the destructors of [UCPRequest]
    and [UCPEndpoint], [request_init_callback], [recv_callback],
    [submit_p2p_request], [recv_with_tag_and_mask], [send_with_tag],
    [connect]) and the transport library behind [<ucp/api/ucp.h>] are
    modelled from the specification; each such definition says so. *)

From stdpp Require Import gmap list strings.
From Stdlib Require Import ZArith Lia.

Local Open Scope Z_scope.

(** ** Status codes and status pointers of the transport library *)

Module UCS.

(** Modelled from the spec: [ucs_status_t] and its constants come from the
    transport library's header, which is not in the source tree.  The spec
    names three outcomes of a submission: completed immediately, accepted
    and in progress, rejected.  They are the enumerators [UCS_OK],
    [UCS_INPROGRESS] and the negative error codes, the last of which is
    [UCS_ERR_LAST]. *)
Abbreviation ucs_status_t := Z (only parsing).

Definition UCS_OK : ucs_status_t := 0.
Definition UCS_INPROGRESS : ucs_status_t := 1.
Definition UCS_ERR_NO_MEMORY : ucs_status_t := -4.
Definition UCS_ERR_CANCELED : ucs_status_t := -16.
Definition UCS_ERR_LAST : ucs_status_t := -100.

(** A [ucs_status_ptr_t] is a pointer-sized word: an address, or a status
    code stored in a pointer. *)
Abbreviation ucs_status_ptr_t := Z (only parsing).

Definition ptr_bits : Z := 64.

(** Conversion to [uintptr_t]. *)
Definition uintptr (z : Z) : Z := z mod 2 ^ ptr_bits.

(** Conversion to [intptr_t]. *)
Definition intptr (z : Z) : Z :=
  let u := uintptr z in
  if u <? 2 ^ (ptr_bits - 1) then u else u - 2 ^ ptr_bits.

Definition nullptr : ucs_status_ptr_t := 0.

(** Modelled from the spec: the raw outcome indicator an operation returns.
    The library's macros are missing from the source tree; a null word is
    "completed immediately", the words whose signed value lies in
    [UCS_ERR_LAST .. -1] are "rejected" with that status, and every other
    word is the address of a completion record, "accepted, in progress". *)
Definition UCS_PTR_IS_PTR (p : ucs_status_ptr_t) : bool :=
  uintptr (p - 1) <? uintptr UCS_ERR_LAST - 1.

Definition UCS_PTR_IS_ERR (p : ucs_status_ptr_t) : bool :=
  uintptr UCS_ERR_LAST <=? uintptr p.

Definition UCS_PTR_RAW_STATUS (p : ucs_status_ptr_t) : ucs_status_t :=
  intptr p.

Definition UCS_PTR_STATUS (p : ucs_status_ptr_t) : ucs_status_t :=
  if UCS_PTR_IS_PTR p then UCS_INPROGRESS else UCS_PTR_RAW_STATUS p.

Definition UCS_STATUS_PTR (st : ucs_status_t) : ucs_status_ptr_t :=
  uintptr st.

End UCS.

Import UCS.

(** ** Exceptions and results *)

(** [c10::UCXError] is the exception of [TORCH_CHECK_WITH(UCXError, ...)];
    [TORCH_INTERNAL_ASSERT] raises a plain [c10::Error]. *)
Inductive exn : Type :=
| UCXError (st : ucs_status_t) (what : string)
| InternalAssert (cond : string).

(** What a call does: it returns, it throws, or the language leaves it
    undefined (a dereference of a pointer that is not a live record, a
    second free). *)
Inductive result (A : Type) : Type :=
| Returns (a : A)
| Throws (e : exn)
| Undefined.

Arguments Returns {A} a.
Arguments Throws {A} e.
Arguments Undefined {A}.

Definition is_returns {A} (r : result A) : bool :=
  match r with Returns _ => true | _ => false end.

(** [TORCH_CHECK_WITH(UCXError, cond, msg, " Error: ", ucs_status_string(st))] *)
Definition TORCH_CHECK_WITH_UCXError (cond : bool) (st : ucs_status_t)
    (msg : string) : result unit :=
  if cond then Returns tt else Throws (UCXError st msg).

(** [TORCH_UCX_CHECK(st, ...)], header line 17. *)
Definition TORCH_UCX_CHECK (st : ucs_status_t) (msg : string) : result unit :=
  TORCH_CHECK_WITH_UCXError (st =? UCS_OK) st msg.

(** [TORCH_UCX_CHECK_PTR(ptr, ...)], header lines 18-23. *)
Definition TORCH_UCX_CHECK_PTR (ptr : ucs_status_ptr_t) (msg : string)
    : result unit :=
  let _s_t_a_t_u_s := UCS_PTR_STATUS ptr in
  let _i_s_o_k := (_s_t_a_t_u_s =? UCS_INPROGRESS) in
  TORCH_CHECK_WITH_UCXError _i_s_o_k _s_t_a_t_u_s msg.

(** [TORCH_INTERNAL_ASSERT(cond)] *)
Definition TORCH_INTERNAL_ASSERT (cond : bool) (text : string) : result unit :=
  if cond then Returns tt else Throws (InternalAssert text).

(** ** Completion records *)

(** [ucp_tag_recv_info_t]: the tag of the sender and the length received. *)
Module RecvInfo.
Record t : Type := Build { sender_tag : Z; length : Z }.

(** The value of [info = {}]. *)
Definition zero : t := {| sender_tag := 0; length := 0 |}.
End RecvInfo.

(** [UCPRequest::Data], header lines 38-45. *)
Module Data.
Record t : Type := Build { status : ucs_status_t; info : RecvInfo.t }.

Definition reset (d : t) : t :=
  {| status := UCS_INPROGRESS; info := RecvInfo.zero |}.
End Data.

(** The records of the transport's request pool, by address. *)
Abbreviation records := (gmap Z Data.t).

(** A [std::shared_ptr<const UCPWorker>].  The development follows one
    worker and the objects created from it, so a shared pointer to it is a
    token; the control block it counts in is part of the system state. *)
Inductive worker_ptr : Type := shared_from_this.

(** ** Requests: header lines 36-80 *)

Module UCPRequest.

Record t : Type := Build { data : Z; worker : worker_ptr }.

(** [ucs_status_t status() const], lines 49-54. *)
Definition status (mem : records) (r : t) : result ucs_status_t :=
  if data r =? nullptr then Returns UCS_OK
  else match mem !! data r with
       | Some d => Returns (Data.status d)
       | None => Undefined
       end.

(** [const ucp_tag_recv_info_t &info() const], lines 56-59. *)
Definition info (mem : records) (r : t) : result RecvInfo.t :=
  match TORCH_INTERNAL_ASSERT (negb (data r =? nullptr)) "data != nullptr" with
  | Returns _ =>
      match mem !! data r with
      | Some d => Returns (Data.info d)
      | None => Undefined
      end
  | Throws e => Throws e
  | Undefined => Undefined
  end.

End UCPRequest.

(** ** A state-and-exception monad

    The member functions below run against mutable state and may throw;
    [M S A] threads a state of type [S] and stops at the first call that
    throws or is undefined, keeping the state reached so far. *)

Definition M (S A : Type) : Type := S -> result A * S.

Definition ret {S A} (a : A) : M S A := fun s => (Returns a, s).

Definition bind {S A B} (m : M S A) (k : A -> M S B) : M S B :=
  fun s =>
    match m s with
    | (Returns a, s') => k a s'
    | (Throws e, s') => (Throws e, s')
    | (Undefined, s') => (Undefined, s')
    end.

Definition lift_result {S A} (r : result A) : M S A := fun s => (r, s).

Definition modify {S} (f : S -> S) : M S unit := fun s => (Returns tt, f s).

Notation "x <-- c ;; k" := (bind c (fun x => k))
  (at level 100, c at next level, right associativity).
Notation "c ;;; k" := (bind c (fun _ => k))
  (at level 100, right associativity).

(** ** The transport behind [<ucp/api/ucp.h>] *)

(** [ucp_tag_t] is a 64-bit unsigned integer. *)
Definition tag_bits : Z := 64.
Definition all_ones : Z := 2 ^ tag_bits - 1.

(** Modelled from the spec: the tag matching rule of the transport, which
    is not in the source tree.  Section 3: the matching rule is
    [(incoming_tag & mask) == (expected_tag & mask)]. *)
Definition tag_matches (incoming expected mask : Z) : bool :=
  Z.land incoming mask =? Z.land expected mask.

(** Modelled from the spec: [c10::DeviceType], whose header is not in the
    source tree; section 6 asks for host and accelerator at least. *)
Inductive DeviceType : Type := CPU | CUDA.

(** The part of [ucp_request_param_t] a submission depends on. *)
Record ucp_request_param_t : Type := { memory_type : DeviceType }.

Module Transport.

(** Modelled from the spec: a message that reached the worker, with the
    tag the sender attached and the number of bytes it carries. *)
Record message : Type := { msg_tag : Z; msg_length : Z }.

(** Modelled from the spec: an operation the transport accepted ("accepted,
    in progress") and has not finished, with the record it was given. *)
Inductive pending_op : Type :=
| TagRecv (request : Z) (tag tag_mask : Z)
| TagSend (request : Z) (tag : Z).

Definition op_request (o : pending_op) : Z :=
  match o with TagRecv p _ _ => p | TagSend p _ => p end.

(** Modelled from the spec: an operation that is eligible for completion;
    its callback runs in the next call of [progress] that reaches it. *)
Record completion : Type :=
  { c_request : Z; c_status : ucs_status_t; c_info : RecvInfo.t }.

(** Modelled from the spec: the state of the polling context.  The library
    is not in the source tree; the spec describes a pool of completion
    records that the caller resets and returns ([pool], [allocated],
    [freed]), operations that are accepted and later become eligible
    ([pending], [ready]), tag-matched receives ([unexpected] holds the
    messages no receive has matched yet) and the context itself, which
    [ucp_worker_destroy] tears down ([live]). *)
Record t : Type := Build {
  pool : records;
  allocated : gset Z;
  pending : list pending_op;
  ready : list completion;
  unexpected : list message;
  freed : list Z;
  live : bool
}.

Definition set_pool (f : records -> records) (u : t) : t :=
  Build (f (pool u)) (allocated u) (pending u) (ready u) (unexpected u)
        (freed u) (live u).
Definition set_allocated (f : gset Z -> gset Z) (u : t) : t :=
  Build (pool u) (f (allocated u)) (pending u) (ready u) (unexpected u)
        (freed u) (live u).
Definition set_pending (f : list pending_op -> list pending_op) (u : t) : t :=
  Build (pool u) (allocated u) (f (pending u)) (ready u) (unexpected u)
        (freed u) (live u).
Definition set_ready (f : list completion -> list completion) (u : t) : t :=
  Build (pool u) (allocated u) (pending u) (f (ready u)) (unexpected u)
        (freed u) (live u).
Definition set_unexpected (f : list message -> list message) (u : t) : t :=
  Build (pool u) (allocated u) (pending u) (ready u) (f (unexpected u))
        (freed u) (live u).
Definition set_freed (f : list Z -> list Z) (u : t) : t :=
  Build (pool u) (allocated u) (pending u) (ready u) (unexpected u)
        (f (freed u)) (live u).
Definition set_live (b : bool) (u : t) : t :=
  Build (pool u) (allocated u) (pending u) (ready u) (unexpected u)
        (freed u) b.

(** The records some unfinished operation still refers to. *)
Definition in_flight (u : t) : list Z :=
  (op_request <$> pending u) ++ (c_request <$> ready u).

End Transport.

Import Transport.

(** Modelled from the spec: [UCPRequest::request_init_callback], declared
    at header line 47 and defined elsewhere.  It puts a record of the pool
    in the pool's initial state, which is the state [reset] produces. *)
Definition request_init_callback (request : Z) (mem : records) : records :=
  alter Data.reset request mem.

(** Modelled from the spec: [UCPWorker::recv_callback], declared at header
    lines 86-88 and defined elsewhere.  The completion callback stores the
    status and the receive information in the record. *)
Definition recv_callback (request : Z) (status : ucs_status_t)
    (info : RecvInfo.t) (mem : records) : records :=
  alter (fun _ => {| Data.status := status; Data.info := info |}) request mem.

(** Modelled from the spec: creation of the request pool.  Every record of
    the pool's memory is initialised with [request_init_callback]. *)
Definition create_pool (raw : records) : records :=
  foldr request_init_callback raw (elements (dom raw)).

(** Modelled from the spec: [ucp_worker_create] allocates the polling
    context; [raw] is the memory of its request pool. *)
Definition ucp_worker_create (raw : records) : Transport.t :=
  {| pool := create_pool raw; allocated := ∅; pending := []; ready := [];
     unexpected := []; freed := []; live := true |}.

(** Modelled from the spec: [ucp_worker_destroy]. *)
Definition ucp_worker_destroy (u : Transport.t) : Transport.t :=
  set_live false u.

(** Modelled from the spec: the pool hands out a record that is neither
    held by the caller nor referred to by an unfinished operation. *)
Definition available (p : Z) (u : Transport.t) : bool :=
  UCS_PTR_IS_PTR p
  && bool_decide (p ∈ dom (pool u))
  && bool_decide (p ∉ allocated u)
  && bool_decide (p ∉ in_flight u).

(** Modelled from the spec: what the library does with an operation it
    cannot finish at once.  [choice] is the library's decision: the record
    it takes from the pool, or an error status stored in a pointer. *)
Definition accept (choice : ucs_status_ptr_t) (op : Z -> pending_op)
    (u : Transport.t) : ucs_status_ptr_t * Transport.t :=
  if available choice u then
    (choice,
     set_pending (fun l => l ++ [op choice])
       (set_allocated (fun a => {[choice]} ∪ a) u))
  else if UCS_PTR_IS_ERR choice then (choice, u)
  else (UCS_STATUS_PTR UCS_ERR_NO_MEMORY, u).

(** The first element of a list that satisfies [f], and the rest. *)
Fixpoint extract {A} (f : A -> bool) (l : list A) : option (A * list A) :=
  match l with
  | [] => None
  | x :: l' =>
      if f x then Some (x, l')
      else match extract f l' with
           | Some (y, r) => Some (y, x :: r)
           | None => None
           end
  end.

(** Modelled from the spec: [ucp_tag_recv_nbx].  A message that already
    arrived and matches completes the receive at once; otherwise the
    receive is posted with a record of the pool, or rejected. *)
Definition ucp_tag_recv_nbx (choice : ucs_status_ptr_t) (tag tag_mask : Z)
    (param : ucp_request_param_t) (u : Transport.t)
    : ucs_status_ptr_t * Transport.t :=
  let matching m := tag_matches (msg_tag m) tag tag_mask in
  match extract matching (unexpected u) with
  | Some (_, rest) => (nullptr, set_unexpected (fun _ => rest) u)
  | None => accept choice (fun p => TagRecv p tag tag_mask) u
  end.

(** Modelled from the spec: [ucp_tag_send_nbx].  The library sends at once
    (a null result), queues the send with a record of the pool, or rejects
    it. *)
Definition ucp_tag_send_nbx (choice : ucs_status_ptr_t) (tag : Z)
    (param : ucp_request_param_t) (u : Transport.t)
    : ucs_status_ptr_t * Transport.t :=
  if choice =? nullptr then (nullptr, u)
  else accept choice (fun p => TagSend p tag) u.

(** Modelled from the spec: [ucp_request_free] returns a record to the
    pool.  Returning a record the caller does not hold is undefined. *)
Definition ucp_request_free (request : Z) : M Transport.t unit :=
  fun u =>
    if bool_decide (request ∈ allocated u) then
      (Returns tt,
       set_freed (fun l => request :: l)
         (set_allocated (fun a => a ∖ {[request]}) u))
    else (Undefined, u).

(** Modelled from the spec: whether a message matches a pending operation:
    only a receive can match, by the tag matching rule. *)
Definition is_match (m : message) (o : pending_op) : bool :=
  match o with
  | TagRecv _ tag tag_mask => tag_matches (msg_tag m) tag tag_mask
  | TagSend _ _ => false
  end.

(** Modelled from the spec: a message arrives.  It completes the first
    posted receive whose masked tag agrees, or waits for one. *)
Definition arrive (m : message) (u : Transport.t) : Transport.t :=
  match extract (is_match m) (pending u) with
  | Some (o, rest) =>
      set_ready
        (fun l => l ++ [{| c_request := op_request o; c_status := UCS_OK;
                           c_info := {| RecvInfo.sender_tag := msg_tag m;
                                        RecvInfo.length := msg_length m |} |}])
        (set_pending (fun _ => rest) u)
  | None => set_unexpected (fun l => l ++ [m]) u
  end.

(** Modelled from the spec: an accepted operation ends without a message
    being matched: a send is done, or an operation fails with an error
    status.  The status is [UCS_OK] or an error, never in progress. *)
Definition finish (p : Z) (st : ucs_status_t) (u : Transport.t)
    : option Transport.t :=
  if st <=? UCS_OK then
    match extract (fun o => op_request o =? p) (pending u) with
    | Some (o, rest) =>
        Some (set_ready
                (fun l => l ++ [{| c_request := p; c_status := st;
                                   c_info := RecvInfo.zero |}])
                (set_pending (fun _ => rest) u))
    | None => None
    end
  else None.

(** Modelled from the spec: the completion callbacks of the operations
    [cs], run in order. *)
Fixpoint deliver (cs : list completion) (mem : records) : records :=
  match cs with
  | [] => mem
  | c :: cs' =>
      deliver cs' (recv_callback (c_request c) (c_status c) (c_info c) mem)
  end.

(** Modelled from the spec: [ucp_worker_progress] does a bounded amount of
    work: it runs the callbacks of at most [budget] eligible operations
    and returns how many it ran. *)
Definition ucp_worker_progress (budget : nat) : M Transport.t nat :=
  fun u =>
    let now := take budget (ready u) in
    (Returns (List.length now),
     set_ready (drop budget) (set_pool (deliver now) u)).

(** ** Endpoints: header lines 107-123 *)

Module UCPEndpoint.
Record t : Type := Build { endpoint : Z; worker : worker_ptr }.
End UCPEndpoint.

(** ** The worker and everything created from it

    [ucx] is the polling context the worker owns (its [ucp_worker_h]).
    [use_count] is the use count of the [std::shared_ptr] control block of
    the worker; [handles] counts the shared pointers the caller holds
    itself.  [endpoints] and [requests] are the live [UCPEndpoint] and
    [UCPRequest] objects, by identity. *)
Record System : Type := mkSystem {
  ucx : Transport.t;
  use_count : nat;
  handles : nat;
  endpoints : gmap nat UCPEndpoint.t;
  requests : gmap nat UCPRequest.t
}.

Definition set_ucx (f : Transport.t -> Transport.t) (s : System) : System :=
  mkSystem (f (ucx s)) (use_count s) (handles s) (endpoints s) (requests s).
Definition set_use_count (f : nat -> nat) (s : System) : System :=
  mkSystem (ucx s) (f (use_count s)) (handles s) (endpoints s) (requests s).
Definition set_handles (f : nat -> nat) (s : System) : System :=
  mkSystem (ucx s) (use_count s) (f (handles s)) (endpoints s) (requests s).
Definition set_endpoints
    (f : gmap nat UCPEndpoint.t -> gmap nat UCPEndpoint.t) (s : System)
    : System :=
  mkSystem (ucx s) (use_count s) (handles s) (f (endpoints s)) (requests s).
Definition set_requests
    (f : gmap nat UCPRequest.t -> gmap nat UCPRequest.t) (s : System)
    : System :=
  mkSystem (ucx s) (use_count s) (handles s) (endpoints s) (f (requests s)).

(** Run a computation of the transport on the worker's context. *)
Definition on_ucx {A} (m : M Transport.t A) : M System A :=
  fun s => let '(r, u) := m (ucx s) in (r, set_ucx (fun _ => u) s).

Definition call {A} (f : Transport.t -> A * Transport.t) : M Transport.t A :=
  fun u => let '(a, u') := f u in (Returns a, u').

Module UCPWorker.

(** [~UCPWorker() { ucp_worker_destroy(worker); }], line 92. *)
Definition destroy : M System unit := on_ucx (modify ucp_worker_destroy).

(** [unsigned progress() const { return ucp_worker_progress(worker); }],
    line 101.  [budget] is how much work the engine does in this call. *)
Definition progress (budget : nat) : M System nat :=
  on_ucx (ucp_worker_progress budget).

End UCPWorker.

(** Copying a [std::shared_ptr<const UCPWorker>]. *)
Definition shared_ptr_copy (w : worker_ptr) : M System worker_ptr :=
  fun s => (Returns w, set_use_count S s).

(** Destroying one: the last owner runs the destructor of the worker. *)
Definition shared_ptr_release (w : worker_ptr) : M System unit :=
  fun s =>
    match use_count s with
    | O => (Undefined, s)
    | S O => UCPWorker.destroy (set_use_count (fun _ => O) s)
    | S n => (Returns tt, set_use_count (fun _ => n) s)
    end.

(** [UCPRequest(const std::shared_ptr<const UCPWorker> &worker, Data *data)
      : data(data), worker(worker) {}], lines 70-71. *)
Definition UCPRequest_new (worker : worker_ptr) (data : Z)
    : M System UCPRequest.t :=
  w <-- shared_ptr_copy worker ;;
  ret {| UCPRequest.data := data; UCPRequest.worker := w |}.

(** [data->reset()] on a record of the pool. *)
Definition data_reset (p : Z) : M System unit :=
  on_ucx (fun u =>
    match pool u !! p with
    | Some d => (Returns tt, set_pool (fun mem => <[p := Data.reset d]> mem) u)
    | None => (Undefined, u)
    end).

(** Modelled from the spec: [UCPRequest::~UCPRequest], declared at header
    line 61 and defined elsewhere.  Section 4.3: if a backing record
    exists, its fields are reset to the pool's initial values and it is
    returned to the native pool; then the Worker reference is released.
    If no record exists, destruction only releases the Worker reference. *)
Definition UCPRequest_delete (r : UCPRequest.t) : M System unit :=
  (if UCPRequest.data r =? nullptr then ret tt
   else (data_reset (UCPRequest.data r) ;;;
         on_ucx (ucp_request_free (UCPRequest.data r)))) ;;;
  shared_ptr_release (UCPRequest.worker r).

(** Modelled from the spec: [UCPWorker::submit_p2p_request], declared at
    header line 103 and defined elsewhere.  Section 4.1: it invokes the
    operation and classifies the indicator: on immediate completion it
    returns a Request with no backing record; on in-progress it wraps the
    returned record pointer in a Request; on any other outcome it fails
    with the error carrying the native status.  The failure is the one
    [TORCH_UCX_CHECK_PTR] of the header raises. *)
Definition submit_p2p_request (device : DeviceType)
    (work : ucp_request_param_t -> M System ucs_status_ptr_t)
    : M System UCPRequest.t :=
  let params := {| memory_type := device |} in
  request <-- work params ;;
  if UCS_PTR_STATUS request =? UCS_OK then
    UCPRequest_new shared_from_this nullptr
  else
    lift_result (TORCH_UCX_CHECK_PTR request "failed to submit request") ;;;
    UCPRequest_new shared_from_this request.

(** Modelled from the spec: [UCPWorker::recv_with_tag_and_mask], declared
    at header line 104 and defined elsewhere.  It posts a tag-matched
    receive, routed through [submit_p2p_request].  The buffer does not
    take part in the properties below; [choice] is the transport's
    decision when the receive cannot complete at once. *)
Definition recv_with_tag_and_mask (choice : ucs_status_ptr_t)
    (tag tag_mask : Z) (device : DeviceType) : M System UCPRequest.t :=
  submit_p2p_request device
    (fun params => on_ucx (call (ucp_tag_recv_nbx choice tag tag_mask params))).

(** Modelled from the spec: [UCPEndpoint::send_with_tag], declared at
    header line 122 and defined elsewhere.  It posts a tagged send, routed
    through the worker's [submit_p2p_request]. *)
Definition send_with_tag (e : UCPEndpoint.t) (choice : ucs_status_ptr_t)
    (tag : Z) (device : DeviceType) : M System UCPRequest.t :=
  submit_p2p_request device
    (fun params => on_ucx (call (ucp_tag_send_nbx choice tag params))).

(** Modelled from the spec: [UCPWorker::connect] and the constructor of
    [UCPEndpoint], declared at header lines 100 and 112 and defined
    elsewhere.  [st] is what the transport answers when it creates the
    connection [handle]; a failure produces no Endpoint.  An Endpoint
    holds a strong reference to its Worker. *)
Definition connect (handle : Z) (st : ucs_status_t) : M System UCPEndpoint.t :=
  lift_result (TORCH_UCX_CHECK st "failed to create endpoint") ;;;
  w <-- shared_ptr_copy shared_from_this ;;
  ret {| UCPEndpoint.endpoint := handle; UCPEndpoint.worker := w |}.

(** Modelled from the spec: [UCPEndpoint::~UCPEndpoint], declared at header
    line 115.  It releases the connection handle, then the Worker. *)
Definition UCPEndpoint_delete (e : UCPEndpoint.t) : M System unit :=
  shared_ptr_release (UCPEndpoint.worker e).

(** Modelled from the spec: creation of a Worker: a polling context with
    its request pool, owned by one shared pointer the caller holds. *)
Definition UCPWorker_new (raw : records) : System :=
  {| ucx := ucp_worker_create raw; use_count := 1; handles := 1;
     endpoints := ∅; requests := ∅ |}.

(** ** What a program and the network can do *)

Inductive Op : Type :=
| CopyWorker
| DropWorker
| Connect (e : nat) (handle : Z) (st : ucs_status_t)
| DropEndpoint (e : nat)
| Recv (r : nat) (tag tag_mask : Z) (device : DeviceType)
       (choice : ucs_status_ptr_t)
| Send (r : nat) (e : nat) (tag : Z) (device : DeviceType)
       (choice : ucs_status_ptr_t)
| DropRequest (r : nat)
| Progress (budget : nat)
| Arrive (m : message)
| Finish (p : Z) (st : ucs_status_t).

(** After a call: a result is stored by [k], an exception leaves the state
    the call reached, undefined behaviour ends the run. *)
Definition after {A} (out : result A * System) (k : A -> System -> System)
    : option System :=
  match out with
  | (Returns a, s) => Some (k a s)
  | (Throws _, s) => Some s
  | (Undefined, _) => None
  end.

Definition step (op : Op) (s : System) : option System :=
  match op with
  | CopyWorker =>
      if handles s is O then None
      else after (shared_ptr_copy shared_from_this s)
                 (fun _ => set_handles S)
  | DropWorker =>
      if handles s is O then None
      else after (shared_ptr_release shared_from_this (set_handles pred s))
                 (fun _ s' => s')
  | Connect e handle st =>
      if handles s is O then None
      else if endpoints s !! e is Some _ then None
      else after (connect handle st s)
                 (fun ep => set_endpoints (fun m => <[e := ep]> m))
  | DropEndpoint e =>
      match endpoints s !! e with
      | Some ep =>
          after (UCPEndpoint_delete ep (set_endpoints (delete e) s))
                (fun _ s' => s')
      | None => None
      end
  | Recv r tag tag_mask device choice =>
      if handles s is O then None
      else if requests s !! r is Some _ then None
      else after (recv_with_tag_and_mask choice tag tag_mask device s)
                 (fun rq => set_requests (fun m => <[r := rq]> m))
  | Send r e tag device choice =>
      match endpoints s !! e with
      | Some ep =>
          if requests s !! r is Some _ then None
          else after (send_with_tag ep choice tag device s)
                     (fun rq => set_requests (fun m => <[r := rq]> m))
      | None => None
      end
  | DropRequest r =>
      match requests s !! r with
      | Some rq =>
          after (UCPRequest_delete rq (set_requests (delete r) s))
                (fun _ s' => s')
      | None => None
      end
  | Progress budget =>
      if handles s is O then None
      else after (UCPWorker.progress budget s) (fun _ s' => s')
  | Arrive m =>
      if live (ucx s) then Some (set_ucx (arrive m) s) else None
  | Finish p st =>
      if live (ucx s) then
        match finish p st (ucx s) with
        | Some u => Some (set_ucx (fun _ => u) s)
        | None => None
        end
      else None
  end.

Fixpoint run (ops : list Op) (s : System) : option System :=
  match ops with
  | [] => Some s
  | op :: ops' =>
      match step op s with
      | Some s' => run ops' s'
      | None => None
      end
  end.

(** The states a program can reach from a freshly created worker. *)
Inductive reachable : System -> Prop :=
| reachable_new raw : reachable (UCPWorker_new raw)
| reachable_step op s s' :
    reachable s -> step op s = Some s' -> reachable s'.

(** The status and the information a live Request reports. *)
Definition status_of (s : System) (r : nat) : option (result ucs_status_t) :=
  UCPRequest.status (pool (ucx s)) <$> requests s !! r.

Definition info_of (s : System) (r : nat) : option (result RecvInfo.t) :=
  UCPRequest.info (pool (ucx s)) <$> requests s !! r.

(** ** Invariants of the reachable states *)

(** The owners of the worker: the caller's handles, the Endpoints and the
    Requests. *)
Definition owners (s : System) : nat :=
  (handles s + size (endpoints s) + size (requests s))%nat.

(** The control block counts the owners, and the polling context exists
    exactly as long as there is one. *)
Definition ownership_inv (s : System) : Prop :=
  use_count s = owners s /\
  (live (ucx s) = true <-> use_count s <> O).

(** The records the caller holds are the backing records of the live
    Requests, one Request each. *)
Definition records_inv (s : System) : Prop :=
  (forall r rq, requests s !! r = Some rq ->
     UCPRequest.data rq <> nullptr ->
     UCPRequest.data rq ∈ allocated (ucx s)) /\
  (forall p, p ∈ allocated (ucx s) ->
     p <> nullptr /\ p ∈ dom (pool (ucx s)) /\
     exists r rq, requests s !! r = Some rq /\ UCPRequest.data rq = p) /\
  (forall r1 r2 rq1 rq2,
     requests s !! r1 = Some rq1 -> requests s !! r2 = Some rq2 ->
     UCPRequest.data rq1 = UCPRequest.data rq2 ->
     UCPRequest.data rq1 <> nullptr -> r1 = r2).

(** Section 5 of the spec leaves open what the transport does with a
    record that is released while its operation is still in flight.  A run
    is orderly when no Request is destroyed in that situation. *)
Definition orderly_op (op : Op) (s : System) : bool :=
  match op with
  | DropRequest r =>
      match requests s !! r with
      | Some rq => bool_decide (UCPRequest.data rq ∉ in_flight (ucx s))
      | None => true
      end
  | _ => true
  end.


Inductive orderly : System -> Prop :=
| orderly_new raw : orderly (UCPWorker_new raw)
| orderly_step op s s' :
    orderly s -> orderly_op op s = true -> step op s = Some s' -> orderly s'.

(** In an orderly run every record in flight is held by the caller and
    still in its initial state, no record is in flight twice, the
    completions waiting for [progress] are final, the records the pool
    keeps are in their initial state, and a record the caller holds that
    is no longer in flight carries a final status. *)
Definition transport_inv (u : Transport.t) : Prop :=
  NoDup (in_flight u) /\
  (forall p, p ∈ in_flight u -> p ∈ allocated u) /\
  (forall p d, p ∈ in_flight u -> pool u !! p = Some d ->
     d = Data.reset d) /\
  (forall c, c ∈ ready u -> c_status c <= UCS_OK) /\
  (forall p d, pool u !! p = Some d -> p ∉ allocated u -> d = Data.reset d) /\
  (forall p d, p ∈ allocated u -> p ∉ in_flight u -> pool u !! p = Some d ->
     Data.status d <= UCS_OK).

Definition completion_inv (s : System) : Prop := transport_inv (ucx s).


(** ** The shape of each step *)

(** [released s s']: one owner of the worker has gone; the last one takes
    the polling context with it. *)
Definition released (s s' : System) : Prop :=
  use_count s = S (use_count s') /\
  handles s' = handles s /\
  endpoints s' = endpoints s /\
  requests s' = requests s /\
  ucx s' = (if use_count s' is O then ucp_worker_destroy (ucx s) else ucx s).

(** The state after a Request [rq] was stored under [r]. *)
Definition with_request (r : nat) (rq : UCPRequest.t) (s : System) : System :=
  set_requests (fun m => <[r := rq]> m) (set_use_count S s).

Definition request_on (p : Z) : UCPRequest.t :=
  {| UCPRequest.data := p; UCPRequest.worker := shared_from_this |}.

(** The transport took record [p] from the pool for operation [o]. *)
Definition queued (p : Z) (o : pending_op) (u : Transport.t) : Transport.t :=
  set_pending (fun l => l ++ [o]) (set_allocated (fun a => {[p]} ∪ a) u).

(** The caller reset record [p] to [d] and returned it. *)
Definition returned (p : Z) (d : Data.t) (u : Transport.t) : Transport.t :=
  set_freed (fun l => p :: l)
    (set_allocated (fun a => a ∖ {[p]})
       (set_pool (fun mem => <[p := d]> mem) u)).

(** What one call of [progress] does to the context. *)
Definition progressed (budget : nat) (u : Transport.t) : Transport.t :=
  set_ready (drop budget) (set_pool (deliver (take budget (ready u))) u).

(** The outcomes of a submission stored under [r]: rejected, completed at
    once, or queued with record [p] for operation [o]. *)
Definition submitted (r : nat) (s s' : System) : Prop :=
  requests s !! r = None /\
  (s' = s \/
   (exists rest,
      s' = with_request r (request_on nullptr)
             (set_ucx (set_unexpected (fun _ => rest)) s)) \/
   (exists p o,
      available p (ucx s) = true /\ op_request o = p /\
      s' = with_request r (request_on p) (set_ucx (queued p o) s))).

(** The destruction of Request [r]. *)
Definition dropped (r : nat) (s s' : System) : Prop :=
  exists rq, requests s !! r = Some rq /\
    ((UCPRequest.data rq = nullptr /\
      released (set_requests (delete r) s) s') \/
     (UCPRequest.data rq <> nullptr /\
      exists d, pool (ucx s) !! UCPRequest.data rq = Some d /\
        UCPRequest.data rq ∈ allocated (ucx s) /\
        released
          (set_ucx (returned (UCPRequest.data rq) (Data.reset d))
             (set_requests (delete r) s)) s')).

(** ** Example runs *)

(** A pool of two records whose memory holds arbitrary values. *)
Definition example_raw : records :=
  {[ 4096 := {| Data.status := 7;
                Data.info := {| RecvInfo.sender_tag := 3;
                                RecvInfo.length := 3 |} |};
     8192 := {| Data.status := UCS_OK; Data.info := RecvInfo.zero |} ]}.

Definition example_worker : System := UCPWorker_new example_raw.

Definition example_message : message := {| msg_tag := 5; msg_length := 10 |}.

(** A receive is posted and waits for its message. *)
Definition example_pending : list Op :=
  [Recv 0%nat 5 all_ones CPU 4096].

(** The message is already there when the receive is posted. *)
Definition example_immediate : list Op :=
  [Arrive example_message; Recv 0%nat 5 all_ones CPU 4096].

(** What Request [r] reports after a run from the example worker. *)
Definition report (ops : list Op) (r : nat)
    : option (option (result ucs_status_t) * option (result RecvInfo.t)) :=
  match run ops example_worker with
  | Some s => Some (status_of s r, info_of s r)
  | None => None
  end.

(** The state a run from the example worker ends in. *)
Definition state_after (ops : list Op) : System :=
  default example_worker (run ops example_worker).


(** An Endpoint is connected, a receive is posted, its message arrives. *)
Definition example_busy : list Op :=
  [Connect 0%nat 77 UCS_OK; Recv 0%nat 5 all_ones CPU 4096;
   Arrive example_message].

(** The pool of the example worker, and a Request on one of its records. *)
Definition example_pool : records := pool (ucx example_worker).



(** A pool in which another record than the one at 4096 is overwritten. *)
Definition example_pool_other : records :=
  <[8192 := {| Data.status := UCS_ERR_CANCELED;
               Data.info := {| RecvInfo.sender_tag := 9;
                               RecvInfo.length := 1 |} |}]> example_pool.

(** A receive is posted, its message arrives and [progress] delivers the
    completion: the record holds the status and the receive information. *)
Definition example_done : list Op :=
  [Recv 0%nat 5 all_ones CPU 4096; Arrive example_message; Progress 1].




(** * Properties *)

(** ** Status pointers *)

Section StatusPointers.

Lemma two_ptr_bits : 2 ^ ptr_bits = 18446744073709551616.
Proof. reflexivity. Qed.

Lemma uintptr_range z : 0 <= uintptr z < 18446744073709551616.
Proof. unfold uintptr. rewrite two_ptr_bits. apply Z.mod_pos_bound. lia. Qed.

Lemma uintptr_pred z : uintptr z <> 0 -> uintptr (z - 1) = uintptr z - 1.
Proof.
  unfold uintptr. rewrite two_ptr_bits. intros Hz.
  pose proof (Z.mod_pos_bound z 18446744073709551616 ltac:(lia)) as Hb.
  symmetry. apply (Z.mod_unique _ _ (z / 18446744073709551616)); [lia|].
  pose proof (Z.div_mod z 18446744073709551616 ltac:(lia)). lia.
Qed.

Lemma uintptr_pred_zero z :
  uintptr z = 0 -> uintptr (z - 1) = 18446744073709551615.
Proof.
  unfold uintptr. rewrite two_ptr_bits. intros Hz.
  symmetry. apply (Z.mod_unique _ _ (z / 18446744073709551616 - 1)); [lia|].
  pose proof (Z.div_mod z 18446744073709551616 ltac:(lia)). lia.
Qed.

Lemma uintptr_err_last : uintptr UCS_ERR_LAST = 18446744073709551516.
Proof. reflexivity. Qed.

(** A word is an address exactly when it is neither null nor an error. *)
Lemma UCS_PTR_IS_PTR_spec p :
  UCS_PTR_IS_PTR p = true <->
  0 < uintptr p < 18446744073709551516.
Proof.
  unfold UCS_PTR_IS_PTR. rewrite uintptr_err_last, Z.ltb_lt.
  pose proof (uintptr_range p) as Hr.
  destruct (decide (uintptr p = 0)) as [H0|H0].
  - rewrite (uintptr_pred_zero _ H0). lia.
  - rewrite (uintptr_pred _ H0). lia.
Qed.

Lemma UCS_PTR_IS_ERR_spec p :
  UCS_PTR_IS_ERR p = true <-> 18446744073709551516 <= uintptr p.
Proof. unfold UCS_PTR_IS_ERR. rewrite uintptr_err_last, Z.leb_le. done. Qed.

Lemma UCS_PTR_STATUS_ptr p :
  UCS_PTR_IS_PTR p = true -> UCS_PTR_STATUS p = UCS_INPROGRESS.
Proof. unfold UCS_PTR_STATUS. by intros ->. Qed.

(** The status of a word that is not an address is zero or an error. *)
Lemma UCS_PTR_STATUS_not_ptr p :
  UCS_PTR_IS_PTR p = false ->
  (uintptr p = 0 /\ UCS_PTR_STATUS p = UCS_OK) \/
  (UCS_PTR_IS_ERR p = true /\ UCS_ERR_LAST <= UCS_PTR_STATUS p < 0).
Proof.
  intros Hp. unfold UCS_PTR_STATUS. rewrite Hp.
  assert (~ (0 < uintptr p < 18446744073709551516)) as Hn.
  { rewrite <- UCS_PTR_IS_PTR_spec. by rewrite Hp. }
  pose proof (uintptr_range p) as Hr.
  unfold UCS_PTR_RAW_STATUS, intptr, UCS_OK, UCS_ERR_LAST.
  rewrite two_ptr_bits.
  change (2 ^ (ptr_bits - 1)) with 9223372036854775808.
  destruct (decide (uintptr p = 0)) as [H0|H0].
  - left. rewrite H0. done.
  - right. rewrite UCS_PTR_IS_ERR_spec.
    destruct (Z.ltb_spec (uintptr p) 9223372036854775808); lia.
Qed.

Lemma UCS_PTR_STATUS_in_progress p :
  UCS_PTR_STATUS p = UCS_INPROGRESS <-> UCS_PTR_IS_PTR p = true.
Proof.
  split; [|apply UCS_PTR_STATUS_ptr].
  destruct (UCS_PTR_IS_PTR p) eqn:Hp; [done|].
  destruct (UCS_PTR_STATUS_not_ptr p Hp) as [[_ ->]|[_ H]];
    unfold UCS_INPROGRESS, UCS_OK in *; lia.
Qed.

Lemma UCS_PTR_STATUS_ok p :
  UCS_PTR_STATUS p = UCS_OK <-> uintptr p = 0.
Proof.
  destruct (UCS_PTR_IS_PTR p) eqn:Hp.
  - rewrite (UCS_PTR_STATUS_ptr _ Hp).
    apply UCS_PTR_IS_PTR_spec in Hp. unfold UCS_INPROGRESS, UCS_OK. lia.
  - destruct (UCS_PTR_STATUS_not_ptr p Hp) as [[H0 ->]|[He H]]; [done|].
    apply UCS_PTR_IS_ERR_spec in He. unfold UCS_OK. lia.
Qed.

Lemma UCS_PTR_STATUS_err p :
  UCS_PTR_IS_ERR p = true ->
  UCS_PTR_STATUS p <> UCS_OK /\ UCS_PTR_STATUS p <> UCS_INPROGRESS.
Proof.
  intros He. pose proof He as He'. apply UCS_PTR_IS_ERR_spec in He'. split.
  - rewrite UCS_PTR_STATUS_ok. lia.
  - rewrite UCS_PTR_STATUS_in_progress, UCS_PTR_IS_PTR_spec. lia.
Qed.

Lemma UCS_PTR_IS_PTR_not_null p : UCS_PTR_IS_PTR p = true -> p <> nullptr.
Proof. intros Hp ->. done. Qed.

End StatusPointers.

(** ** The monad *)

Lemma bind_returns {S A B} (m : M S A) (k : A -> M S B) s a s' :
  m s = (Returns a, s') -> bind m k s = k a s'.
Proof. unfold bind. by intros ->. Qed.

Lemma bind_throws {S A B} (m : M S A) (k : A -> M S B) s e s' :
  m s = (Throws e, s') -> bind m k s = (Throws e, s').
Proof. unfold bind. by intros ->. Qed.

Lemma bind_undefined {S A B} (m : M S A) (k : A -> M S B) s s' :
  m s = (Undefined, s') -> bind m k s = (Undefined, s').
Proof. unfold bind. by intros ->. Qed.

(** ** Submission *)

Lemma TORCH_UCX_CHECK_PTR_ok ptr msg :
  UCS_PTR_STATUS ptr = UCS_INPROGRESS ->
  TORCH_UCX_CHECK_PTR ptr msg = Returns tt.
Proof. unfold TORCH_UCX_CHECK_PTR. by intros ->. Qed.

Lemma TORCH_UCX_CHECK_PTR_fails ptr msg :
  UCS_PTR_STATUS ptr <> UCS_INPROGRESS ->
  TORCH_UCX_CHECK_PTR ptr msg = Throws (UCXError (UCS_PTR_STATUS ptr) msg).
Proof.
  unfold TORCH_UCX_CHECK_PTR, TORCH_CHECK_WITH_UCXError. intros Hne.
  by destruct (Z.eqb_spec (UCS_PTR_STATUS ptr) UCS_INPROGRESS).
Qed.

(** The macro alone rejects an immediate completion: the null case has to
    be taken before it. *)
Lemma TORCH_UCX_CHECK_PTR_null msg :
  TORCH_UCX_CHECK_PTR nullptr msg = Throws (UCXError UCS_OK msg).
Proof. reflexivity. Qed.

Lemma submit_immediate device work s ptr s1 :
  work {| memory_type := device |} s = (Returns ptr, s1) ->
  UCS_PTR_STATUS ptr = UCS_OK ->
  submit_p2p_request device work s =
    (Returns {| UCPRequest.data := nullptr;
                UCPRequest.worker := shared_from_this |},
     set_use_count S s1).
Proof.
  intros Hw Hst. unfold submit_p2p_request.
  rewrite (bind_returns _ _ _ _ _ Hw), Hst. reflexivity.
Qed.

Lemma submit_in_progress device work s ptr s1 :
  work {| memory_type := device |} s = (Returns ptr, s1) ->
  UCS_PTR_STATUS ptr = UCS_INPROGRESS ->
  submit_p2p_request device work s =
    (Returns {| UCPRequest.data := ptr;
                UCPRequest.worker := shared_from_this |},
     set_use_count S s1).
Proof.
  intros Hw Hst. unfold submit_p2p_request.
  rewrite (bind_returns _ _ _ _ _ Hw), Hst. simpl.
  unfold bind, lift_result.
  rewrite (TORCH_UCX_CHECK_PTR_ok _ _ Hst). reflexivity.
Qed.

Lemma submit_rejected device work s ptr s1 :
  work {| memory_type := device |} s = (Returns ptr, s1) ->
  UCS_PTR_STATUS ptr <> UCS_OK ->
  UCS_PTR_STATUS ptr <> UCS_INPROGRESS ->
  submit_p2p_request device work s =
    (Throws (UCXError (UCS_PTR_STATUS ptr) "failed to submit request"), s1).
Proof.
  intros Hw Hok Hin. unfold submit_p2p_request.
  rewrite (bind_returns _ _ _ _ _ Hw).
  destruct (Z.eqb_spec (UCS_PTR_STATUS ptr) UCS_OK); [done|].
  unfold bind, lift_result.
  rewrite (TORCH_UCX_CHECK_PTR_fails _ _ Hin). reflexivity.
Qed.

(** C1. [submit_p2p_request] classifies the raw outcome [ptr] of the
    caller's operation.  An immediate completion gives a Request with no
    backing record; an operation in progress gives a Request that wraps
    the returned record pointer; any other outcome throws the transport
    error with the native status, and then no Request is produced: the
    call has no result, and the state is the one the operation left, with
    no new owner of the worker. *)
Theorem submit_p2p_request_classifies device work s ptr s1 :
  work {| memory_type := device |} s = (Returns ptr, s1) ->
  (UCS_PTR_STATUS ptr = UCS_OK ->
   submit_p2p_request device work s =
     (Returns {| UCPRequest.data := nullptr;
                 UCPRequest.worker := shared_from_this |},
      set_use_count S s1)) /\
  (UCS_PTR_STATUS ptr = UCS_INPROGRESS ->
   submit_p2p_request device work s =
     (Returns {| UCPRequest.data := ptr;
                 UCPRequest.worker := shared_from_this |},
      set_use_count S s1)) /\
  (UCS_PTR_STATUS ptr <> UCS_OK -> UCS_PTR_STATUS ptr <> UCS_INPROGRESS ->
   submit_p2p_request device work s =
     (Throws (UCXError (UCS_PTR_STATUS ptr) "failed to submit request"), s1)
   /\ is_returns (fst (submit_p2p_request device work s)) = false
   /\ forall r,
        after (submit_p2p_request device work s)
              (fun rq => set_requests (fun m => <[r := rq]> m)) = Some s1).
Proof.
  intros Hw. split; [|split].
  - by apply submit_immediate.
  - by apply submit_in_progress.
  - intros Hok Hin.
    rewrite (submit_rejected _ _ _ _ _ Hw Hok Hin). done.
Qed.

(** ** Reading a Request *)

Lemma status_null mem r :
  UCPRequest.data r = nullptr -> UCPRequest.status mem r = Returns UCS_OK.
Proof. unfold UCPRequest.status. by intros ->. Qed.

Lemma status_record mem r d :
  UCPRequest.data r <> nullptr -> mem !! UCPRequest.data r = Some d ->
  UCPRequest.status mem r = Returns (Data.status d).
Proof.
  unfold UCPRequest.status. intros Hn ->.
  by destruct (Z.eqb_spec (UCPRequest.data r) nullptr).
Qed.

Lemma info_null mem r :
  UCPRequest.data r = nullptr ->
  UCPRequest.info mem r = Throws (InternalAssert "data != nullptr").
Proof. unfold UCPRequest.info. by intros ->. Qed.

Lemma info_record mem r d :
  UCPRequest.data r <> nullptr -> mem !! UCPRequest.data r = Some d ->
  UCPRequest.info mem r = Returns (Data.info d).
Proof.
  unfold UCPRequest.info. intros Hn ->.
  by destruct (Z.eqb_spec (UCPRequest.data r) nullptr).
Qed.

(** C6. A Request with no backing record reports [UCS_OK], whatever the
    records of the pool hold: no call of [progress] is needed. *)
Theorem status_without_record_is_ok mem r :
  UCPRequest.data r = nullptr -> UCPRequest.status mem r = Returns UCS_OK.
Proof. apply status_null. Qed.

Lemma status_in_progress_inv mem r :
  UCPRequest.status mem r = Returns UCS_INPROGRESS ->
  UCPRequest.data r <> nullptr /\
  exists d, mem !! UCPRequest.data r = Some d /\
            Data.status d = UCS_INPROGRESS.
Proof.
  unfold UCPRequest.status.
  destruct (Z.eqb_spec (UCPRequest.data r) nullptr); [done|].
  destruct (mem !! UCPRequest.data r) as [d|]; [|done].
  intros [= Hst]. eauto.
Qed.

(** C7, as the code has it.  On a Request with no backing record [status]
    is [UCS_OK] and [info] fails the internal assertion that a record
    exists. *)
Theorem info_without_record_fails mem r :
  UCPRequest.data r = nullptr ->
  UCPRequest.status mem r = Returns UCS_OK /\
  UCPRequest.info mem r = Throws (InternalAssert "data != nullptr").
Proof. intros Hn. by rewrite status_null, info_null. Qed.

(** ** Resetting a record *)

Lemma lookup_request_init_callback p q mem :
  request_init_callback p mem !! q =
    if decide (p = q) then Data.reset <$> mem !! q else mem !! q.
Proof.
  unfold request_init_callback. rewrite lookup_alter.
  by case_decide; subst.
Qed.

Lemma lookup_recv_callback p q st i mem :
  recv_callback p st i mem !! q =
    if decide (p = q)
    then (fun _ => {| Data.status := st; Data.info := i |}) <$> mem !! q
    else mem !! q.
Proof.
  unfold recv_callback. rewrite lookup_alter.
  by case_decide; subst.
Qed.

(** C10. [reset] sets the status of a record to [UCS_INPROGRESS] and its
    info to zero.  So a Request on a record that was just initialised by
    [request_init_callback], or just reset, reports [UCS_INPROGRESS] and
    zero info, and it reports the status of a completion as soon as the
    completion callback has stored it. *)
Theorem reset_reports_in_progress :
  (forall d,
     Data.status (Data.reset d) = UCS_INPROGRESS /\
     Data.info (Data.reset d) = RecvInfo.zero) /\
  (forall mem p d w,
     p <> nullptr -> mem !! p = Some d ->
     let r := {| UCPRequest.data := p; UCPRequest.worker := w |} in
     UCPRequest.status (request_init_callback p mem) r
       = Returns UCS_INPROGRESS /\
     UCPRequest.info (request_init_callback p mem) r
       = Returns RecvInfo.zero /\
     UCPRequest.status (<[p := Data.reset d]> mem) r
       = Returns UCS_INPROGRESS /\
     forall st i,
       UCPRequest.status
         (recv_callback p st i (<[p := Data.reset d]> mem)) r = Returns st).
Proof.
  split; [done|]. intros mem p d w Hp Hd r.
  assert (UCPRequest.data r <> nullptr) as Hr by done.
  assert (request_init_callback p mem !! UCPRequest.data r
          = Some (Data.reset d)) as Hinit.
  { change (UCPRequest.data r) with p.
    rewrite lookup_request_init_callback, decide_True by done.
    by rewrite Hd. }
  assert (<[p := Data.reset d]> mem !! UCPRequest.data r
          = Some (Data.reset d)) as Hreset.
  { change (UCPRequest.data r) with p. apply lookup_insert_eq. }
  rewrite (status_record _ _ _ Hr Hinit), (info_record _ _ _ Hr Hinit),
    (status_record _ _ _ Hr Hreset).
  repeat split. intros st i.
  apply (status_record _ _ {| Data.status := st; Data.info := i |} Hr).
  change (UCPRequest.data r) with p.
  rewrite lookup_recv_callback, decide_True by done.
  by rewrite lookup_insert_eq.
Qed.

(** ** The shape of each step *)

Lemma shared_ptr_release_spec w s :
  match use_count s with
  | O => shared_ptr_release w s = (Undefined, s)
  | S n => exists s', shared_ptr_release w s = (Returns tt, s') /\ released s s'
  end.
Proof.
  destruct s as [u c h es rs]. unfold shared_ptr_release, released. simpl.
  destruct c as [|[|n]]; [done| |]; eexists; split; done.
Qed.

Lemma after_release w s s' :
  after (shared_ptr_release w s) (fun _ s' => s') = Some s' -> released s s'.
Proof.
  pose proof (shared_ptr_release_spec w s) as H.
  destruct (use_count s).
  - by rewrite H.
  - destruct H as (s1 & -> & Hrel). simpl. by intros [= <-].
Qed.

Lemma step_CopyWorker s s' :
  step CopyWorker s = Some s' ->
  handles s <> O /\ s' = set_handles S (set_use_count S s).
Proof.
  unfold step. destruct (handles s) eqn:Hh; [done|].
  unfold shared_ptr_copy. simpl. by intros [= <-].
Qed.

Lemma step_DropWorker s s' :
  step DropWorker s = Some s' ->
  handles s <> O /\ released (set_handles pred s) s'.
Proof.
  unfold step. destruct (handles s) eqn:Hh; [done|].
  intros H. split; [done|]. by apply after_release in H.
Qed.

Lemma step_Connect e handle st s s' :
  step (Connect e handle st) s = Some s' ->
  handles s <> O /\ endpoints s !! e = None /\
  (s' = s \/
   s' = set_endpoints
          (fun m => <[e := {| UCPEndpoint.endpoint := handle;
                             UCPEndpoint.worker := shared_from_this |}]> m)
          (set_use_count S s)).
Proof.
  unfold step. destruct (handles s) eqn:Hh; [done|].
  destruct (endpoints s !! e) eqn:He; [done|].
  intros H. split; [done|]. split; [done|].
  unfold connect, bind, lift_result, TORCH_UCX_CHECK,
    TORCH_CHECK_WITH_UCXError in H.
  destruct (st =? UCS_OK); simpl in H; injection H as <-; auto.
Qed.

Lemma step_DropEndpoint e s s' :
  step (DropEndpoint e) s = Some s' ->
  is_Some (endpoints s !! e) /\ released (set_endpoints (delete e) s) s'.
Proof.
  unfold step. destruct (endpoints s !! e) eqn:He; [|done].
  intros H. split; [done|]. by apply after_release in H.
Qed.

Lemma system_eta s :
  mkSystem (ucx s) (use_count s) (handles s) (endpoints s) (requests s) = s.
Proof. by destruct s. Qed.

Lemma transport_eta u :
  Transport.Build (pool u) (allocated u) (pending u) (ready u)
    (unexpected u) (freed u) (live u) = u.
Proof. by destruct u. Qed.

Lemma set_ucx_same s : set_ucx (fun _ => ucx s) s = s.
Proof. apply system_eta. Qed.

(** The three outcomes of [accept]. *)
Lemma accept_cases choice op u :
  (available choice u = true /\
   accept choice op u = (choice, queued choice (op choice) u)) \/
  (available choice u = false /\
   UCS_PTR_IS_PTR (fst (accept choice op u)) = false /\
   uintptr (fst (accept choice op u)) <> 0 /\
   snd (accept choice op u) = u).
Proof.
  unfold accept. destruct (available choice u) eqn:Ha; [by left|right].
  split; [done|].
  destruct (UCS_PTR_IS_ERR choice) eqn:He; simpl; [|done].
  apply UCS_PTR_IS_ERR_spec in He. split; [|split; [lia|done]].
  destruct (UCS_PTR_IS_PTR choice) eqn:Hp; [|done].
  apply UCS_PTR_IS_PTR_spec in Hp. lia.
Qed.

Lemma available_is_ptr p u : available p u = true -> UCS_PTR_IS_PTR p = true.
Proof. unfold available. rewrite !andb_true_iff. tauto. Qed.

Lemma available_spec p u :
  available p u = true <->
  UCS_PTR_IS_PTR p = true /\ p ∈ dom (pool u) /\ (p ∉ allocated u) /\
  (p ∉ in_flight u).
Proof.
  unfold available. rewrite !andb_true_iff, !bool_decide_eq_true. tauto.
Qed.

(** A submission whose operation leaves the System alone but for the
    context: the operation is rejected, completes at once, or is queued. *)
Lemma submit_cases device (f : ucp_request_param_t -> Transport.t -> Z * Transport.t) s :
  let '(ptr, u) := f {| memory_type := device |} (ucx s) in
  submit_p2p_request device (fun params => on_ucx (call (f params))) s =
    if UCS_PTR_STATUS ptr =? UCS_OK then
      (Returns (request_on nullptr), set_use_count S (set_ucx (fun _ => u) s))
    else if UCS_PTR_STATUS ptr =? UCS_INPROGRESS then
      (Returns (request_on ptr), set_use_count S (set_ucx (fun _ => u) s))
    else
      (Throws (UCXError (UCS_PTR_STATUS ptr) "failed to submit request"),
       set_ucx (fun _ => u) s).
Proof.
  destruct (f _ (ucx s)) as [ptr u] eqn:Hf.
  assert ((fun params => on_ucx (call (f params)))
            {| memory_type := device |} s
          = (Returns ptr, set_ucx (fun _ => u) s)) as Hw.
  { unfold on_ucx, call. by rewrite Hf. }
  destruct (Z.eqb_spec (UCS_PTR_STATUS ptr) UCS_OK) as [Hok|Hok].
  { by rewrite (submit_immediate _ _ _ _ _ Hw Hok). }
  destruct (Z.eqb_spec (UCS_PTR_STATUS ptr) UCS_INPROGRESS) as [Hin|Hin].
  { by rewrite (submit_in_progress _ _ _ _ _ Hw Hin). }
  by rewrite (submit_rejected _ _ _ _ _ Hw Hok Hin).
Qed.

Lemma set_unexpected_same s :
  set_ucx (set_unexpected (fun _ => unexpected (ucx s))) s = s.
Proof. by destruct s as [[] ? ? ? ?]. Qed.

Lemma step_Recv r tag tag_mask device choice s s' :
  step (Recv r tag tag_mask device choice) s = Some s' ->
  handles s <> O /\ submitted r s s'.
Proof.
  unfold step. destruct (handles s) eqn:Hh; [done|].
  destruct (requests s !! r) eqn:Hr; [done|].
  intros H. split; [done|]. split; [done|].
  unfold recv_with_tag_and_mask in H.
  pose proof (submit_cases device (ucp_tag_recv_nbx choice tag tag_mask) s)
    as Hc.
  unfold ucp_tag_recv_nbx in Hc at 1.
  destruct (extract _ (unexpected (ucx s))) as [[m rest]|] eqn:He.
  - rewrite Hc in H. simpl in H. injection H as <-.
    right; left. by exists rest.
  - destruct (accept_cases choice (fun p => TagRecv p tag tag_mask) (ucx s))
      as [[Ha Hq]|(Ha & Hp & Hz & Hu)].
    + rewrite Hq in Hc. rewrite Hc in H.
      pose proof (available_is_ptr _ _ Ha) as Hptr.
      pose proof (UCS_PTR_STATUS_ptr _ Hptr) as Hst.
      rewrite Hst in H. simpl in H. injection H as <-.
      right; right. by exists choice, (TagRecv choice tag tag_mask).
    + destruct (accept _ _ _) as [ptr u]. simpl in *. subst u.
      rewrite Hc in H.
      destruct (Z.eqb_spec (UCS_PTR_STATUS ptr) UCS_OK) as [Hok|Hok].
      { by apply UCS_PTR_STATUS_ok in Hok. }
      destruct (Z.eqb_spec (UCS_PTR_STATUS ptr) UCS_INPROGRESS) as [Hin|Hin].
      { apply UCS_PTR_STATUS_in_progress in Hin. congruence. }
      simpl in H. injection H as <-. left. by rewrite set_ucx_same.
Qed.

Lemma step_Send r e tag device choice s s' :
  step (Send r e tag device choice) s = Some s' ->
  is_Some (endpoints s !! e) /\ submitted r s s'.
Proof.
  unfold step. destruct (endpoints s !! e) eqn:Hep; [|done].
  destruct (requests s !! r) eqn:Hr; [done|].
  intros H. split; [done|]. split; [done|].
  unfold send_with_tag in H.
  pose proof (submit_cases device (ucp_tag_send_nbx choice tag) s) as Hc.
  unfold ucp_tag_send_nbx in Hc at 1.
  destruct (Z.eqb_spec choice nullptr) as [->|Hn].
  - rewrite Hc in H. simpl in H. injection H as <-.
    right; left. exists (unexpected (ucx s)).
    by rewrite set_unexpected_same.
  - destruct (accept_cases choice (fun p => TagSend p tag) (ucx s))
      as [[Ha Hq]|(Ha & Hp & Hz & Hu)].
    + rewrite Hq in Hc. rewrite Hc in H.
      pose proof (available_is_ptr _ _ Ha) as Hptr.
      pose proof (UCS_PTR_STATUS_ptr _ Hptr) as Hst.
      rewrite Hst in H. simpl in H. injection H as <-.
      right; right. by exists choice, (TagSend choice tag).
    + destruct (accept _ _ _) as [ptr u]. simpl in *. subst u.
      rewrite Hc in H.
      destruct (Z.eqb_spec (UCS_PTR_STATUS ptr) UCS_OK) as [Hok|Hok].
      { by apply UCS_PTR_STATUS_ok in Hok. }
      destruct (Z.eqb_spec (UCS_PTR_STATUS ptr) UCS_INPROGRESS) as [Hin|Hin].
      { apply UCS_PTR_STATUS_in_progress in Hin. congruence. }
      simpl in H. injection H as <-. left. by rewrite set_ucx_same.
Qed.

Lemma UCPRequest_delete_null rq s :
  UCPRequest.data rq = nullptr ->
  UCPRequest_delete rq s = shared_ptr_release (UCPRequest.worker rq) s.
Proof.
  intros Hn. unfold UCPRequest_delete. rewrite Hn. simpl.
  unfold bind, ret. by destruct (shared_ptr_release _ s) as [[] ?].
Qed.

Lemma UCPRequest_delete_record rq s d :
  UCPRequest.data rq <> nullptr ->
  pool (ucx s) !! UCPRequest.data rq = Some d ->
  UCPRequest.data rq ∈ allocated (ucx s) ->
  UCPRequest_delete rq s =
    shared_ptr_release (UCPRequest.worker rq)
      (set_ucx (returned (UCPRequest.data rq) (Data.reset d)) s).
Proof.
  intros Hn Hd Ha. unfold UCPRequest_delete.
  destruct (Z.eqb_spec (UCPRequest.data rq) nullptr); [done|].
  unfold bind at 1. unfold bind at 1.
  unfold data_reset, on_ucx. rewrite Hd. simpl.
  unfold ucp_request_free. simpl. rewrite bool_decide_eq_true_2 by done.
  unfold bind, returned. simpl.
  by destruct (shared_ptr_release _ _) as [[] ?].
Qed.

Lemma UCPRequest_delete_dangling rq s :
  UCPRequest.data rq <> nullptr ->
  pool (ucx s) !! UCPRequest.data rq = None \/
  UCPRequest.data rq ∉ allocated (ucx s) ->
  fst (UCPRequest_delete rq s) = Undefined.
Proof.
  intros Hn Hbad. unfold UCPRequest_delete.
  destruct (Z.eqb_spec (UCPRequest.data rq) nullptr); [done|].
  unfold bind at 1. unfold bind at 1.
  unfold data_reset, on_ucx.
  destruct (pool (ucx s) !! UCPRequest.data rq) as [d|] eqn:Hd; [|done].
  destruct Hbad as [|Ha]; [done|]. simpl.
  unfold ucp_request_free. simpl. by rewrite bool_decide_eq_false_2.
Qed.

Lemma step_DropRequest r s s' :
  step (DropRequest r) s = Some s' -> dropped r s s'.
Proof.
  unfold step. destruct (requests s !! r) as [rq|] eqn:Hr; [|done].
  intros H. exists rq. split; [done|].
  destruct (decide (UCPRequest.data rq = nullptr)) as [Hn|Hn].
  - left. split; [done|]. rewrite UCPRequest_delete_null in H by done.
    by apply after_release in H.
  - right. split; [done|].
    destruct (pool (ucx s) !! UCPRequest.data rq) as [d|] eqn:Hd; last first.
    { pose proof (UCPRequest_delete_dangling rq (set_requests (delete r) s)
                    Hn (or_introl Hd)) as Hu.
      destruct (UCPRequest_delete _ _) as [[] ?]; done. }
    destruct (decide (UCPRequest.data rq ∈ allocated (ucx s))) as [Ha|Ha];
      last first.
    { pose proof (UCPRequest_delete_dangling rq (set_requests (delete r) s)
                    Hn (or_intror Ha)) as Hu.
      destruct (UCPRequest_delete _ _) as [[] ?]; done. }
    exists d. split; [done|]. split; [done|].
    rewrite (UCPRequest_delete_record _ _ d) in H by done.
    by apply after_release in H.
Qed.

Lemma step_Progress budget s s' :
  step (Progress budget) s = Some s' ->
  handles s <> O /\ s' = set_ucx (progressed budget) s.
Proof.
  unfold step. destruct (handles s) eqn:Hh; [done|].
  unfold UCPWorker.progress, on_ucx, ucp_worker_progress. simpl.
  by intros [= <-].
Qed.

Lemma step_Arrive m s s' :
  step (Arrive m) s = Some s' ->
  live (ucx s) = true /\ s' = set_ucx (arrive m) s.
Proof. unfold step. destruct (live (ucx s)); [|done]. by intros [= <-]. Qed.

Lemma step_Finish p st s s' :
  step (Finish p st) s = Some s' ->
  live (ucx s) = true /\
  exists u, finish p st (ucx s) = Some u /\ s' = set_ucx (fun _ => u) s.
Proof.
  unfold step. destruct (live (ucx s)); [|done].
  destruct (finish p st (ucx s)) as [u|]; [|done].
  intros [= <-]. eauto.
Qed.

(** ** Shared ownership of the worker *)

Lemma released_ownership s s' :
  released s s' -> use_count s = S (owners s) -> live (ucx s) = true ->
  ownership_inv s'.
Proof.
  intros (Hc & Hh & He & Hr & Hu) Hown Hlive.
  unfold ownership_inv, owners in *. rewrite Hh, He, Hr. split; [lia|].
  rewrite Hu. destruct (use_count s'); simpl; [done|].
  by rewrite Hlive.
Qed.

Lemma ownership_new raw : ownership_inv (UCPWorker_new raw).
Proof. unfold ownership_inv, owners. simpl. rewrite !map_size_empty. done. Qed.

Lemma submitted_ownership r s s' :
  submitted r s s' -> owners s <> O -> ownership_inv s -> ownership_inv s'.
Proof.
  intros [Hr Hcases] Hsome [Hown Hlive]. unfold ownership_inv, owners in *.
  destruct Hcases as [->|[(rest & ->)|(p & o & _ & _ & ->)]]; [done| |];
    simpl; rewrite map_size_insert_None by done; (split; [lia|]);
    rewrite Hlive; lia.
Qed.

Lemma dropped_ownership r s s' :
  dropped r s s' -> ownership_inv s -> ownership_inv s'.
Proof.
  intros (rq & Hr & Hcases) [Hown Hlive].
  assert (size (requests s) <> O) as Hsz by by eapply map_size_ne_0_lookup_2.
  assert (size (delete r (requests s)) = pred (size (requests s))) as Hdel
    by by apply map_size_delete_Some.
  assert (live (ucx s) = true) as Hl by (apply Hlive; unfold owners in *; lia).
  destruct Hcases as [[_ Hrel]|(_ & d & _ & _ & Hrel)];
    apply (released_ownership _ _ Hrel); try done;
    unfold owners in *; simpl; rewrite Hdel; lia.
Qed.

Lemma step_ownership op s s' :
  step op s = Some s' -> ownership_inv s -> ownership_inv s'.
Proof.
  intros Hstep Hinv. destruct op.
  - apply step_CopyWorker in Hstep as [Hh ->].
    destruct Hinv as [Hown Hlive]. unfold ownership_inv, owners in *. simpl.
    split; [lia|]. rewrite Hlive. lia.
  - apply step_DropWorker in Hstep as [Hh Hrel].
    destruct Hinv as [Hown Hlive]. unfold owners in *.
    apply (released_ownership _ _ Hrel).
    + unfold owners. simpl. lia.
    + simpl. apply Hlive. lia.
  - apply step_Connect in Hstep as (Hh & He & [->| ->]); [done|].
    destruct Hinv as [Hown Hlive]. unfold ownership_inv, owners in *. simpl.
    rewrite map_size_insert_None by done. split; [lia|]. rewrite Hlive. lia.
  - apply step_DropEndpoint in Hstep as [He Hrel].
    assert (size (endpoints s) <> O) by by eapply map_size_ne_0_lookup_2.
    destruct Hinv as [Hown Hlive]. unfold owners in *.
    apply (released_ownership _ _ Hrel).
    + unfold owners. simpl. rewrite map_size_delete_Some by done. lia.
    + simpl. apply Hlive. lia.
  - apply step_Recv in Hstep as [Hh Hsub].
    eapply submitted_ownership; [done| |done]. unfold owners. lia.
  - apply step_Send in Hstep as [He Hsub].
    assert (size (endpoints s) <> O) by by eapply map_size_ne_0_lookup_2.
    eapply submitted_ownership; [done| |done]. unfold owners. lia.
  - apply step_DropRequest in Hstep. by eapply dropped_ownership.
  - by apply step_Progress in Hstep as [_ ->].
  - apply step_Arrive in Hstep as [_ ->].
    destruct Hinv as [Hown Hlive]. split; [done|]. simpl.
    rewrite <- Hlive. unfold arrive.
    by destruct (extract _ _) as [[? ?]|].
  - apply step_Finish in Hstep as (_ & u & Hf & ->).
    destruct Hinv as [Hown Hlive]. split; [done|]. simpl.
    rewrite <- Hlive. unfold finish in Hf.
    destruct (st <=? UCS_OK); [|done].
    destruct (extract _ _) as [[? ?]|]; [|done]. by injection Hf as <-.
Qed.

Lemma reachable_ownership s : reachable s -> ownership_inv s.
Proof.
  induction 1 as [raw|op s s' _ IH Hstep].
  - apply ownership_new.
  - by eapply step_ownership.
Qed.

(** C4. In every state a program can reach, the use count of the worker's
    control block is the number of its owners: the caller's handles, the
    live Endpoints and the live Requests.  So while an Endpoint or a
    Request is alive the polling context has not been destroyed, and it is
    destroyed exactly when the last owner is gone. *)
Theorem worker_outlives_its_referents s :
  reachable s ->
  use_count s = owners s /\
  (forall e ep, endpoints s !! e = Some ep -> live (ucx s) = true) /\
  (forall r rq, requests s !! r = Some rq -> live (ucx s) = true) /\
  (live (ucx s) = false <->
   handles s = O /\ endpoints s = ∅ /\ requests s = ∅).
Proof.
  intros Hreach. destruct (reachable_ownership s Hreach) as [Hown Hlive].
  split; [done|]. unfold owners in Hown.
  split; [|split].
  - intros e ep He. apply Hlive.
    assert (size (endpoints s) <> O) by by eapply map_size_ne_0_lookup_2.
    lia.
  - intros r rq Hr. apply Hlive.
    assert (size (requests s) <> O) by by eapply map_size_ne_0_lookup_2.
    lia.
  - rewrite <- !map_size_empty_iff.
    destruct (live (ucx s)) eqn:Hl.
    + split; [done|]. intros (? & ? & ?).
      assert (use_count s <> O) by by apply Hlive. lia.
    + split; [|done]. intros _.
      assert (use_count s = O).
      { destruct (use_count s); [done|]. assert (false = true); [|done].
        by apply Hlive. }
      lia.
Qed.

(** ** Who holds the records of the pool *)

Lemma records_inv_ext s s' :
  requests s' = requests s ->
  allocated (ucx s') = allocated (ucx s) ->
  dom (pool (ucx s')) = dom (pool (ucx s)) ->
  records_inv s -> records_inv s'.
Proof. unfold records_inv. by intros -> -> ->. Qed.

Lemma released_ucx s s' :
  released s s' ->
  pool (ucx s') = pool (ucx s) /\ allocated (ucx s') = allocated (ucx s) /\
  pending (ucx s') = pending (ucx s) /\ ready (ucx s') = ready (ucx s) /\
  unexpected (ucx s') = unexpected (ucx s) /\ freed (ucx s') = freed (ucx s).
Proof. intros (_ & _ & _ & _ & ->). by destruct (use_count s'). Qed.

Lemma released_records s s' :
  released s s' -> records_inv s -> records_inv s'.
Proof.
  intros Hrel. destruct (released_ucx _ _ Hrel) as (Hp & Ha & _).
  destruct Hrel as (_ & _ & _ & Hr & _).
  apply records_inv_ext; by rewrite ?Hp.
Qed.

Lemma dom_deliver cs mem : dom (deliver cs mem) = dom mem.
Proof.
  revert mem. induction cs as [|c cs IH]; intros mem; simpl; [done|].
  rewrite IH. unfold recv_callback. apply dom_alter_L.
Qed.

Lemma arrive_fields m u :
  pool (arrive m u) = pool u /\ allocated (arrive m u) = allocated u /\
  freed (arrive m u) = freed u /\ live (arrive m u) = live u.
Proof. unfold arrive. by destruct (extract _ _) as [[? ?]|]. Qed.

Lemma finish_fields p st u u' :
  finish p st u = Some u' ->
  pool u' = pool u /\ allocated u' = allocated u /\
  freed u' = freed u /\ live u' = live u /\ unexpected u' = unexpected u.
Proof.
  unfold finish. destruct (st <=? UCS_OK); [|done].
  destruct (extract _ _) as [[? ?]|]; [|done]. by intros [= <-].
Qed.

Lemma records_new raw : records_inv (UCPWorker_new raw).
Proof.
  unfold records_inv. simpl. repeat split; try set_solver.
  all: intros *; by rewrite lookup_empty.
Qed.

Lemma submitted_records r s s' :
  submitted r s s' -> records_inv s -> records_inv s'.
Proof.
  intros [Hr Hcases] (Hheld & Hback & Huniq).
  destruct Hcases as [->|[(rest & ->)|(p & o & Ha & _ & ->)]]; [done| |].
  - unfold records_inv. simpl. split; [|split].
    + intros r' rq' [[<- <-]|[Hne Hl]]%lookup_insert_Some Hd; [done|eauto].
    + intros p Hp. destruct (Hback p Hp) as (Hn & Hdom & r' & rq' & Hl & Hd).
      split; [done|]. split; [done|]. exists r', rq'. split; [|done].
      rewrite lookup_insert_ne; [done|]. intros <-. congruence.
    + intros r1 r2 rq1 rq2
        [[<- <-]|[Hne1 Hl1]]%lookup_insert_Some
        [[<- <-]|[Hne2 Hl2]]%lookup_insert_Some Heq Hd;
        try done; try (simpl in *; congruence). eauto.
  - apply available_spec in Ha as (Hptr & Hdom & Hal & _).
    pose proof (UCS_PTR_IS_PTR_not_null _ Hptr) as Hnull.
    unfold records_inv. simpl. split; [|split].
    + intros r' rq' [[<- <-]|[Hne Hl]]%lookup_insert_Some Hd.
      * simpl. by apply elem_of_union_l, elem_of_singleton.
      * apply elem_of_union_r. eauto.
    + intros p' [->%elem_of_singleton|Hp]%elem_of_union.
      * split; [done|]. split; [done|]. exists r, (request_on p).
        by rewrite lookup_insert_eq.
      * destruct (Hback p' Hp) as (Hn & Hdom' & r' & rq' & Hl & Hd).
        split; [done|]. split; [done|]. exists r', rq'. split; [|done].
        rewrite lookup_insert_ne; [done|]. intros <-. congruence.
    + intros r1 r2 rq1 rq2
        [[<- <-]|[Hne1 Hl1]]%lookup_insert_Some
        [[<- <-]|[Hne2 Hl2]]%lookup_insert_Some Heq Hd; try done.
      * simpl in Heq. exfalso. apply Hal. rewrite Heq. apply (Hheld r2); [done|].
        by rewrite <- Heq.
      * simpl in Heq. exfalso. apply Hal. rewrite <- Heq. by apply (Hheld r1).
      * eauto.
Qed.

Lemma dropped_records r s s' :
  dropped r s s' -> records_inv s -> records_inv s'.
Proof.
  intros (rq & Hr & Hcases) (Hheld & Hback & Huniq).
  destruct Hcases as [[Hn Hrel]|(Hn & d & Hd & Ha & Hrel)];
    apply (released_records _ _ Hrel); unfold records_inv; simpl.
  - split; [|split].
    + intros r' rq' [Hne Hl]%lookup_delete_Some. eauto.
    + intros p Hp. destruct (Hback p Hp) as (Hnp & Hdom & r' & rq' & Hl & Hdp).
      split; [done|]. split; [done|]. exists r', rq'. split; [|done].
      rewrite lookup_delete_ne; [done|]. intros <-. congruence.
    + intros r1 r2 rq1 rq2 [_ Hl1]%lookup_delete_Some
        [_ Hl2]%lookup_delete_Some. eauto.
  - split; [|split].
    + intros r' rq' [Hne Hl]%lookup_delete_Some Hnn.
      apply elem_of_difference. split; [eauto|].
      intros Heq%elem_of_singleton. apply Hne. symmetry. by apply (Huniq r' r rq' rq).
    + intros p [Hp Hnp]%elem_of_difference.
      destruct (Hback p Hp) as (Hnn & Hdom & r' & rq' & Hl & Hdp).
      split; [done|]. split.
      { rewrite dom_insert_L. by apply elem_of_union_r. }
      exists r', rq'. split; [|done].
      rewrite lookup_delete_ne; [done|]. intros <-.
      apply Hnp, elem_of_singleton. congruence.
    + intros r1 r2 rq1 rq2 [_ Hl1]%lookup_delete_Some
        [_ Hl2]%lookup_delete_Some. eauto.
Qed.

Lemma step_records op s s' :
  step op s = Some s' -> records_inv s -> records_inv s'.
Proof.
  intros Hstep Hinv. destruct op.
  - by apply step_CopyWorker in Hstep as [_ ->].
  - apply step_DropWorker in Hstep as [_ Hrel].
    by apply (released_records _ _ Hrel).
  - by apply step_Connect in Hstep as (_ & _ & [->| ->]).
  - apply step_DropEndpoint in Hstep as [_ Hrel].
    by apply (released_records _ _ Hrel).
  - apply step_Recv in Hstep as [_ Hsub]. by eapply submitted_records.
  - apply step_Send in Hstep as [_ Hsub]. by eapply submitted_records.
  - apply step_DropRequest in Hstep. by eapply dropped_records.
  - apply step_Progress in Hstep as [_ ->].
    revert Hinv. apply records_inv_ext; [done..|]. simpl. apply dom_deliver.
  - apply step_Arrive in Hstep as [_ ->].
    destruct (arrive_fields m (ucx s)) as (Hp & Ha & _).
    revert Hinv. apply records_inv_ext; simpl; by rewrite ?Hp.
  - apply step_Finish in Hstep as (_ & u & Hf & ->).
    destruct (finish_fields _ _ _ _ Hf) as (Hp & Ha & _).
    revert Hinv. apply records_inv_ext; simpl; by rewrite ?Hp.
Qed.

Lemma reachable_records s : reachable s -> records_inv s.
Proof.
  induction 1 as [raw|op s s' _ IH Hstep].
  - apply records_new.
  - by eapply step_records.
Qed.

(** ** Destroying a Request *)

Lemma release_succeeds w s :
  use_count s <> O ->
  exists s', shared_ptr_release w s = (Returns tt, s') /\ released s s'.
Proof.
  intros Hc. pose proof (shared_ptr_release_spec w s) as H.
  by destruct (use_count s).
Qed.

Lemma reachable_request_counted s r rq :
  reachable s -> requests s !! r = Some rq -> use_count s <> O.
Proof.
  intros [Hown _]%reachable_ownership Hr.
  assert (size (requests s) <> O) by by eapply map_size_ne_0_lookup_2.
  unfold owners in Hown. lia.
Qed.

(** C3. In every reachable state, destroying a live Request is defined
    and takes the Request away, so it cannot be destroyed again.  When the
    Request holds a backing record, the record held by the caller is reset
    to the pool's initial values, status [UCS_INPROGRESS] and zero info
    whatever it held before, and returned to the pool by exactly one call
    of [ucp_request_free], and no other live Request wraps that record, so
    nothing can return it a second time.  When there is no record, the
    pool and the log of returned records are untouched.  In both cases one
    reference to the Worker is released. *)
Theorem request_destructor_releases_once s r rq :
  reachable s -> requests s !! r = Some rq ->
  exists s',
    step (DropRequest r) s = Some s' /\
    requests s' = delete r (requests s) /\
    step (DropRequest r) s' = None /\
    use_count s = S (use_count s') /\
    handles s' = handles s /\ endpoints s' = endpoints s /\
    pending (ucx s') = pending (ucx s) /\ ready (ucx s') = ready (ucx s) /\
    unexpected (ucx s') = unexpected (ucx s) /\
    if decide (UCPRequest.data rq = nullptr) then
      pool (ucx s') = pool (ucx s) /\
      allocated (ucx s') = allocated (ucx s) /\
      freed (ucx s') = freed (ucx s)
    else
      exists d,
        pool (ucx s) !! UCPRequest.data rq = Some d /\
        UCPRequest.data rq ∈ allocated (ucx s) /\
        pool (ucx s') =
          <[UCPRequest.data rq := {| Data.status := UCS_INPROGRESS;
                                     Data.info := RecvInfo.zero |}]>
            (pool (ucx s)) /\
        allocated (ucx s') = allocated (ucx s) ∖ {[UCPRequest.data rq]} /\
        freed (ucx s') = UCPRequest.data rq :: freed (ucx s) /\
        forall r' rq', requests s' !! r' = Some rq' ->
          UCPRequest.data rq' <> UCPRequest.data rq.
Proof.
  intros Hreach Hr.
  pose proof (reachable_request_counted _ _ _ Hreach Hr) as Hc.
  destruct (reachable_records _ Hreach) as (Hheld & Hback & Huniq).
  assert (forall s', requests s' = delete r (requests s) ->
            step (DropRequest r) s' = None) as Hgone.
  { intros s' Hs'. unfold step. by rewrite Hs', lookup_delete_eq. }
  destruct (decide (UCPRequest.data rq = nullptr)) as [Hn|Hn].
  - destruct (release_succeeds (UCPRequest.worker rq)
                (set_requests (delete r) s) Hc)
      as (s' & Hrel & Hreleased).
    exists s'.
    destruct (released_ucx _ _ Hreleased) as (Hp & Ha & Hpe & Hre & Hun & Hf).
    destruct Hreleased as (Hcnt & Hha & Hen & Hrq & _).
    split.
    { unfold step. rewrite Hr, UCPRequest_delete_null, Hrel by done. done. }
    repeat split; auto.
  - pose proof (Hheld r rq Hr Hn) as Ha.
    destruct (Hback _ Ha) as (_ & [d Hd]%elem_of_dom & _).
    destruct (release_succeeds (UCPRequest.worker rq)
                (set_ucx (returned (UCPRequest.data rq) (Data.reset d))
                   (set_requests (delete r) s)) Hc)
      as (s' & Hrel & Hreleased).
    exists s'.
    destruct (released_ucx _ _ Hreleased) as (Hp & Hal & Hpe & Hre & Hun & Hf).
    destruct Hreleased as (Hcnt & Hha & Hen & Hrq & _).
    split.
    { unfold step. rewrite Hr.
      rewrite (UCPRequest_delete_record _ _ d), Hrel by done. done. }
    split; [done|]. split; [auto|]. split; [done|].
    do 5 (split; [done|]).
    exists d. repeat split; try done.
    intros r' rq'. rewrite Hrq. simpl.
    intros [Hne Hl]%lookup_delete_Some Heq.
    apply Hne. symmetry. apply (Huniq r' r rq' rq); try done. congruence.
Qed.

(** ** Operations in flight *)

Lemma extract_Some {A} (f : A -> bool) l x rest :
  extract f l = Some (x, rest) ->
  f x = true /\
  exists l1 l2, l = l1 ++ x :: l2 /\ rest = l1 ++ l2 /\
    Forall (fun y => f y = false) l1.
Proof.
  revert rest. induction l as [|y l IH]; intros rest; simpl; [done|].
  destruct (f y) eqn:Hy.
  - intros [= <- <-]. split; [done|]. by exists [], l.
  - destruct (extract f l) as [[z r]|]; [|done]. intros [= <- <-].
    destruct (IH r eq_refl) as (Hx & l1 & l2 & -> & -> & Hall).
    split; [done|]. exists (y :: l1), l2. repeat split. by constructor.
Qed.


Lemma extract_Permutation {A} (f : A -> bool) l x rest :
  extract f l = Some (x, rest) -> l ≡ₚ x :: rest.
Proof.
  intros (_ & l1 & l2 & -> & -> & _)%extract_Some.
  by rewrite Permutation_middle.
Qed.

Lemma lookup_deliver_other cs mem p :
  p ∉ c_request <$> cs -> deliver cs mem !! p = mem !! p.
Proof.
  revert mem. induction cs as [|c cs IH]; intros mem Hp; simpl; [done|].
  rewrite fmap_cons, not_elem_of_cons in Hp. destruct Hp as [Hne Hp].
  rewrite IH by done. rewrite lookup_recv_callback.
  by rewrite decide_False.
Qed.

Lemma lookup_deliver_this cs mem c :
  NoDup (c_request <$> cs) -> c ∈ cs -> is_Some (mem !! c_request c) ->
  deliver cs mem !! c_request c
    = Some {| Data.status := c_status c; Data.info := c_info c |}.
Proof.
  revert mem. induction cs as [|c0 cs IH]; intros mem Hnd Hin Hsome.
  { by apply elem_of_nil in Hin. }
  rewrite fmap_cons, NoDup_cons in Hnd. destruct Hnd as [Hfresh Hnd].
  simpl. apply elem_of_cons in Hin as [->|Hin].
  - rewrite lookup_deliver_other by done.
    rewrite lookup_recv_callback, decide_True by done.
    by destruct Hsome as [d ->].
  - apply IH; [done..|].
    rewrite lookup_recv_callback. destruct Hsome as [d Hd].
    case_decide as Heq; [|by rewrite Hd].
    rewrite Heq in *. by rewrite Hd.
Qed.

Lemma lookup_init_all l mem q :
  foldr request_init_callback mem l !! q =
    if decide (q ∈ l) then Data.reset <$> mem !! q else mem !! q.
Proof.
  induction l as [|x l IH]; cbn [foldr].
  - case_decide as Hq; [|done]. by apply elem_of_nil in Hq.
  - rewrite lookup_request_init_callback, IH.
    destruct (decide (x = q)) as [->|Hx].
    + rewrite (decide_True (P := q ∈ q :: l)) by by left.
      case_decide; [|done]. by destruct (mem !! q).
    + destruct (decide (q ∈ l)) as [Hq|Hq].
      * rewrite (decide_True (P := q ∈ x :: l)); [done|by right].
      * rewrite (decide_False (P := q ∈ x :: l)); [done|].
        intros [?|?]%elem_of_cons; congruence.
Qed.

Lemma create_pool_lookup raw p d :
  create_pool raw !! p = Some d -> d = Data.reset d.
Proof.
  unfold create_pool. rewrite lookup_init_all.
  case_decide as Hp.
  - destruct (raw !! p); [|done]. by intros [= <-].
  - intros Hl. exfalso. apply Hp, elem_of_elements, elem_of_dom. eauto.
Qed.

(** ** The invariant of orderly runs *)

Lemma transport_inv_ext u u' :
  pool u' = pool u -> allocated u' = allocated u ->
  pending u' = pending u -> ready u' = ready u ->
  transport_inv u -> transport_inv u'.
Proof. unfold transport_inv, in_flight. by intros -> -> -> ->. Qed.

Lemma released_completion s0 s s' :
  released s s' -> ucx s = ucx s0 -> completion_inv s0 -> completion_inv s'.
Proof.
  intros Hrel Hu. destruct (released_ucx _ _ Hrel) as (Hp & Ha & Hpe & Hr & _).
  unfold completion_inv. rewrite <- Hu. by apply transport_inv_ext.
Qed.

Lemma transport_inv_new raw : transport_inv (ucp_worker_create raw).
Proof.
  unfold transport_inv, in_flight. simpl. split; [constructor|].
  split; [by intros p ?%elem_of_nil|]. split; [by intros p d ?%elem_of_nil|].
  split; [by intros c ?%elem_of_nil|].
  split; [|by intros p d ?%elem_of_empty].
  intros p d Hl _. by eapply create_pool_lookup.
Qed.

Lemma in_flight_queued p o u :
  in_flight (queued p o u) ≡ₚ op_request o :: in_flight u.
Proof.
  unfold in_flight, queued. simpl. rewrite fmap_app. simpl.
  rewrite <- app_assoc. simpl. by rewrite <- Permutation_middle.
Qed.

Lemma transport_inv_queued p o u :
  available p u = true -> op_request o = p ->
  transport_inv u -> transport_inv (queued p o u).
Proof.
  intros (Hptr & Hdom & Hal & Hfl)%available_spec Ho
    (Hnd & Hheld & Hst & Hfin & Hinit & Hdone).
  assert (forall q, q ∈ in_flight (queued p o u) -> q = p \/ q ∈ in_flight u)
    as Hmem.
  { intros q. rewrite in_flight_queued, Ho. apply elem_of_cons. }
  unfold transport_inv. split.
  { rewrite in_flight_queued, Ho. by constructor. }
  simpl. split; [|split; [|split; [|split]]].
  - intros q [->|Hq]%Hmem.
    + by apply elem_of_union_l, elem_of_singleton.
    + by apply elem_of_union_r, Hheld.
  - intros q d [->|Hq]%Hmem Hd; [|eauto].
    exact (Hinit _ _ Hd Hal).
  - done.
  - intros q d Hd Hq. apply (Hinit q d Hd). intros ?. apply Hq.
    by apply elem_of_union_r.
  - intros q d Hq Hnfl Hd.
    rewrite in_flight_queued, Ho, not_elem_of_cons in Hnfl.
    destruct Hnfl as [Hne Hnfl].
    apply elem_of_union in Hq as [Hq%elem_of_singleton|Hq]; [done|].
    by apply (Hdone q d).
Qed.

Lemma in_flight_moved o rest c u :
  pending u ≡ₚ o :: rest -> c_request c = op_request o ->
  in_flight (set_ready (fun l => l ++ [c]) (set_pending (fun _ => rest) u))
    ≡ₚ in_flight u.
Proof.
  intros Hperm Hc. unfold in_flight. simpl. rewrite Hperm, fmap_app. simpl.
  rewrite Hc, app_assoc. by rewrite <- Permutation_cons_append.
Qed.

Lemma transport_inv_moved o rest c u :
  pending u ≡ₚ o :: rest -> c_request c = op_request o ->
  c_status c <= UCS_OK ->
  transport_inv u ->
  transport_inv (set_ready (fun l => l ++ [c]) (set_pending (fun _ => rest) u)).
Proof.
  intros Hperm Hc Hle (Hnd & Hheld & Hst & Hfin & Hinit & Hdone).
  pose proof (in_flight_moved _ _ _ _ Hperm Hc) as Hfl.
  unfold transport_inv. split; [by rewrite Hfl|].
  split; [|split; [|split; [|split]]].
  - intros q Hq. rewrite Hfl in Hq. by apply Hheld.
  - intros q d Hq. rewrite Hfl in Hq. by apply Hst.
  - simpl.
    intros c' [Hc' | ->%list_elem_of_singleton]%elem_of_app; [eauto|done].
  - done.
  - intros q d Hq Hnfl. rewrite Hfl in Hnfl. by apply Hdone.
Qed.

Lemma transport_inv_arrive m u : transport_inv u -> transport_inv (arrive m u).
Proof.
  intros Hinv. unfold arrive.
  destruct (extract _ _) as [[o rest]|] eqn:He.
  - apply transport_inv_moved with (o := o); try done.
    by eapply extract_Permutation.
  - revert Hinv. by apply transport_inv_ext.
Qed.

Lemma transport_inv_finish p st u u' :
  finish p st u = Some u' -> transport_inv u -> transport_inv u'.
Proof.
  unfold finish. destruct (Z.leb_spec st UCS_OK) as [Hle|]; [|done].
  destruct (extract _ _) as [[o rest]|] eqn:He; [|done].
  intros [= <-] Hinv.
  apply transport_inv_moved with (o := o); try done.
  - by eapply extract_Permutation.
  - apply extract_Some in He as [Hp _]. simpl. symmetry. by apply Z.eqb_eq.
Qed.

Lemma in_flight_progressed budget u :
  in_flight u ≡ₚ
    (c_request <$> take budget (ready u)) ++ in_flight (progressed budget u).
Proof.
  unfold in_flight, progressed. simpl.
  rewrite <- (take_drop budget (ready u)) at 1. rewrite fmap_app.
  rewrite !app_assoc.
  by rewrite (Permutation_app_comm (op_request <$> pending u)).
Qed.

Lemma transport_inv_progressed budget u :
  transport_inv u -> transport_inv (progressed budget u).
Proof.
  intros (Hnd & Hheld & Hst & Hfin & Hinit & Hdone).
  pose proof (in_flight_progressed budget u) as Hperm.
  pose proof Hnd as Hnd0.
  rewrite Hperm in Hnd. apply NoDup_app in Hnd as (Hnow & Hsep & Hlater).
  assert (forall q, q ∈ in_flight (progressed budget u) ->
            q ∈ in_flight u /\ q ∉ c_request <$> take budget (ready u))
    as Hstill.
  { intros q Hq. split.
    - rewrite Hperm. by apply elem_of_app; right.
    - intros Hin. by apply (Hsep q). }
  unfold transport_inv. split; [done|]. split; [|split; [|split; [|split]]].
  - intros q [Hq _]%Hstill. by apply Hheld.
  - intros q d Hq. destruct (Hstill q Hq) as [Hq1 Hq2]. simpl.
    rewrite lookup_deliver_other by done. by apply Hst.
  - intros c Hc. simpl in Hc. apply Hfin.
    rewrite <- (take_drop budget (ready u)). by apply elem_of_app; right.
  - simpl. intros q d Hd Hq. apply (Hinit q d); [|done].
    rewrite lookup_deliver_other in Hd; [done|].
    intros Hin. apply Hq, Hheld. rewrite Hperm. by apply elem_of_app; left.
  - simpl. intros q d Hq Hnfl Hd.
    destruct (decide (q ∈ c_request <$> take budget (ready u))) as [Hin|Hout].
    + apply list_elem_of_fmap in Hin as (c & -> & Hc).
      rewrite lookup_deliver_this in Hd; [| done | done |].
      * injection Hd as <-. simpl. apply Hfin.
        rewrite <- (take_drop budget (ready u)). by apply elem_of_app; left.
      * apply elem_of_dom. rewrite <- (dom_deliver (take budget (ready u))).
        apply elem_of_dom. eauto.
    + rewrite lookup_deliver_other in Hd by done.
      apply (Hdone q d); [done| |done].
      rewrite Hperm. intros [?|?]%elem_of_app; done.
Qed.

Lemma transport_inv_returned p d u :
  p ∉ in_flight u -> transport_inv u ->
  transport_inv (returned p (Data.reset d) u).
Proof.
  intros Hp (Hnd & Hheld & Hst & Hfin & Hinit & Hdone).
  unfold transport_inv, in_flight, returned in *. simpl.
  split; [done|]. split; [|split; [|split; [|split]]].
  - intros q Hq. apply elem_of_difference. split; [by apply Hheld|].
    intros ->%elem_of_singleton. done.
  - intros q e Hq. rewrite lookup_insert_ne; [by apply Hst|].
    by intros <-.
  - done.
  - intros q e. destruct (decide (p = q)) as [<-|Hne].
    + rewrite lookup_insert_eq. by intros [= <-].
    + rewrite lookup_insert_ne by done. intros He Hq. apply (Hinit q e He).
      intros Ha. apply Hq, elem_of_difference. split; [done|].
      by intros ->%elem_of_singleton.
  - intros q e [Hq Hne]%elem_of_difference Hnfl.
    rewrite lookup_insert_ne; [by apply Hdone|].
    intros <-. by apply Hne, elem_of_singleton.
Qed.

Lemma step_completion op s s' :
  orderly_op op s = true -> step op s = Some s' ->
  completion_inv s -> completion_inv s'.
Proof.
  intros Hord Hstep Hinv. destruct op.
  - by apply step_CopyWorker in Hstep as [_ ->].
  - apply step_DropWorker in Hstep as [_ Hrel].
    by apply (released_completion s _ _ Hrel).
  - by apply step_Connect in Hstep as (_ & _ & [->| ->]).
  - apply step_DropEndpoint in Hstep as [_ Hrel].
    by apply (released_completion s _ _ Hrel).
  - apply step_Recv in Hstep as
      (_ & _ & [->|[(rest & ->)|(p & o & Ha & Ho & ->)]]); [done| |].
    + revert Hinv. by apply transport_inv_ext.
    + by apply transport_inv_queued.
  - apply step_Send in Hstep as
      (_ & _ & [->|[(rest & ->)|(p & o & Ha & Ho & ->)]]); [done| |].
    + revert Hinv. by apply transport_inv_ext.
    + by apply transport_inv_queued.
  - apply step_DropRequest in Hstep as (rq & Hr & Hcases).
    simpl in Hord. rewrite Hr in Hord. apply bool_decide_eq_true in Hord.
    destruct Hcases as [[Hn Hrel]|(Hn & d & Hd & Ha & Hrel)].
    + by apply (released_completion s _ _ Hrel).
    + apply (released_completion
               (set_ucx (returned (UCPRequest.data rq) (Data.reset d)) s)
               _ _ Hrel); [done|].
      by apply transport_inv_returned.
  - apply step_Progress in Hstep as [_ ->].
    by apply transport_inv_progressed.
  - apply step_Arrive in Hstep as [_ ->]. by apply transport_inv_arrive.
  - apply step_Finish in Hstep as (_ & u & Hf & ->).
    by apply (transport_inv_finish _ _ _ _ Hf).
Qed.

Lemma orderly_reachable s : orderly s -> reachable s.
Proof. induction 1; by econstructor. Qed.

Lemma orderly_completion s : orderly s -> completion_inv s.
Proof.
  induction 1 as [raw|op s s' _ IH Hord Hstep].
  - apply transport_inv_new.
  - by eapply step_completion.
Qed.

(** ** The status of a live Request *)

Lemma status_ext mem mem' rq :
  (UCPRequest.data rq <> nullptr ->
   mem' !! UCPRequest.data rq = mem !! UCPRequest.data rq) ->
  UCPRequest.status mem' rq = UCPRequest.status mem rq.
Proof.
  intros H. unfold UCPRequest.status.
  destruct (Z.eqb_spec (UCPRequest.data rq) nullptr); [done|].
  by rewrite H.
Qed.





Lemma in_flight_backed s r rq :
  orderly s -> requests s !! r = Some rq ->
  UCPRequest.data rq ∈ in_flight (ucx s) ->
  UCPRequest.data rq <> nullptr /\
  exists d, pool (ucx s) !! UCPRequest.data rq = Some d /\ d = Data.reset d.
Proof.
  intros Hord Hr Hfl.
  destruct (orderly_completion _ Hord) as (_ & Hal & Hst & _).
  destruct (reachable_records _ (orderly_reachable _ Hord)) as (_ & Hback & _).
  destruct (Hback _ (Hal _ Hfl)) as (Hn & [d Hd]%elem_of_dom & _).
  split; [done|]. exists d. split; [done|]. by apply (Hst _ _ Hfl).
Qed.


(** On such a Request [info] returns the zero-initialised value. *)
Lemma info_in_flight s r rq :
  orderly s -> requests s !! r = Some rq ->
  UCPRequest.data rq ∈ in_flight (ucx s) ->
  info_of s r = Some (Returns RecvInfo.zero).
Proof.
  intros Hord Hr Hfl.
  destruct (in_flight_backed _ _ _ Hord Hr Hfl) as (Hn & d & Hd & Hst).
  unfold info_of. rewrite Hr. simpl. rewrite (info_record _ _ _ Hn Hd).
  by rewrite Hst.
Qed.


(** C2, as the code has it.  [info] does not look at the status.  On a
    Request whose [status] is still in progress it does not fail: it
    returns the [info] field of the backing record, as it does on every
    Request that has a backing record, whatever [status] reports. *)
Theorem info_while_in_progress mem r :
  (UCPRequest.status mem r = Returns UCS_INPROGRESS ->
   exists d, mem !! UCPRequest.data r = Some d /\
             Data.status d = UCS_INPROGRESS /\
             UCPRequest.info mem r = Returns (Data.info d)) /\
  (forall d, UCPRequest.data r <> nullptr ->
     mem !! UCPRequest.data r = Some d ->
     UCPRequest.status mem r = Returns (Data.status d) /\
     UCPRequest.info mem r = Returns (Data.info d)).
Proof.
  split.
  - intros (Hn & d & Hd & Hst)%status_in_progress_inv.
    exists d. split; [done|]. split; [done|]. by apply info_record.
  - intros d Hn Hd. split; [by apply status_record|by apply info_record].
Qed.

(** ** Operations in flight, in every reachable state *)




















(** ** Tag matching *)










(** ** The example runs *)

Lemma run_reachable ops s s' :
  reachable s -> run ops s = Some s' -> reachable s'.
Proof.
  revert s. induction ops as [|op ops IH]; intros s Hs; simpl.
  - by intros [= <-].
  - destruct (step op s) as [s1|] eqn:Hstep; [|done].
    apply IH. by apply (reachable_step op s).
Qed.


Lemma state_after_reachable ops : reachable (state_after ops).
Proof.
  unfold state_after. destruct (run ops example_worker) as [s|] eqn:Hrun.
  - apply (run_reachable ops example_worker); [constructor|done].
  - constructor.
Qed.


(** ** The theorems at concrete inputs *)

Lemma submit_p2p_request_classifies_example :
  submit_p2p_request CPU (fun _ => ret nullptr) example_worker
    = (Returns (request_on nullptr), set_use_count S example_worker) /\
  submit_p2p_request CPU (fun _ => ret 4096) example_worker
    = (Returns (request_on 4096), set_use_count S example_worker) /\
  submit_p2p_request CPU
      (fun _ => ret (UCS_STATUS_PTR UCS_ERR_NO_MEMORY)) example_worker
    = (Throws (UCXError UCS_ERR_NO_MEMORY "failed to submit request"),
       example_worker).
Proof.
  split; [|split].
  - destruct (submit_p2p_request_classifies CPU (fun _ => ret nullptr)
                example_worker nullptr example_worker eq_refl) as (H & _ & _).
    exact (H eq_refl).
  - destruct (submit_p2p_request_classifies CPU (fun _ => ret 4096)
                example_worker 4096 example_worker eq_refl) as (_ & H & _).
    exact (H eq_refl).
  - destruct (submit_p2p_request_classifies CPU
                (fun _ => ret (UCS_STATUS_PTR UCS_ERR_NO_MEMORY))
                example_worker (UCS_STATUS_PTR UCS_ERR_NO_MEMORY)
                example_worker eq_refl) as (_ & _ & H).
    destruct H as [H _]; [vm_compute; discriminate..|]. exact H.
Defined.

Lemma info_while_in_progress_example :
  exists d,
    pool (ucx (state_after example_pending)) !! 4096 = Some d /\
    Data.status d = UCS_INPROGRESS /\
    UCPRequest.info (pool (ucx (state_after example_pending)))
      (request_on 4096) = Returns (Data.info d).
Proof.
  assert (UCPRequest.status (pool (ucx (state_after example_pending)))
            (request_on 4096) = Returns UCS_INPROGRESS) as Hst
    by (vm_compute; reflexivity).
  exact (proj1 (info_while_in_progress
                  (pool (ucx (state_after example_pending)))
                  (request_on 4096)) Hst).
Defined.

(** C2, the claim as stated fails: a receive is posted and [progress] has
    not run; the Request reports in progress, and [info] returns the
    zero-initialised record contents instead of failing. *)
Lemma info_before_completion_returns :
  report example_pending 0
    = Some (Some (Returns UCS_INPROGRESS), Some (Returns RecvInfo.zero)).
Proof. vm_compute. reflexivity. Qed.

Lemma status_without_record_is_ok_example :
  UCPRequest.status example_pool (request_on nullptr) = Returns UCS_OK.
Proof.
  apply (status_without_record_is_ok example_pool (request_on nullptr)).
  reflexivity.
Defined.

Lemma info_without_record_fails_example :
  UCPRequest.status example_pool (request_on nullptr) = Returns UCS_OK /\
  UCPRequest.info example_pool (request_on nullptr)
    = Throws (InternalAssert "data != nullptr").
Proof.
  apply (info_without_record_fails example_pool (request_on nullptr)).
  reflexivity.
Defined.

(** C7, the claim as stated fails: the message is there before the receive
    is posted, so the receive completes at submission and the Request has
    no backing record; [status] reports [UCS_OK] and [info] fails the
    internal assertion. *)
Lemma info_after_immediate_completion_throws :
  report example_immediate 0
    = Some (Some (Returns UCS_OK),
            Some (Throws (InternalAssert "data != nullptr"))).
Proof. vm_compute. reflexivity. Qed.

Lemma reset_reports_in_progress_example :
  UCPRequest.status (request_init_callback 4096 example_raw) (request_on 4096)
    = Returns UCS_INPROGRESS /\
  UCPRequest.status
    (recv_callback 4096 UCS_ERR_CANCELED RecvInfo.zero
       (<[4096 := Data.reset (Data.Build 7 (RecvInfo.Build 3 3))]> example_raw))
    (request_on 4096) = Returns UCS_ERR_CANCELED.
Proof.
  assert (4096 <> nullptr) as Hn by (vm_compute; discriminate).
  assert (example_raw !! 4096 = Some (Data.Build 7 (RecvInfo.Build 3 3)))
    as Hd by (vm_compute; reflexivity).
  destruct reset_reports_in_progress as [_ H].
  destruct (H example_raw 4096 _ shared_from_this Hn Hd) as (H1 & _ & _ & H4).
  split; [exact H1|exact (H4 UCS_ERR_CANCELED RecvInfo.zero)].
Defined.

Lemma request_destructor_releases_once_example :
  pool (ucx (state_after example_done)) !! 4096
    = Some {| Data.status := UCS_OK;
              Data.info := {| RecvInfo.sender_tag := 5;
                              RecvInfo.length := 10 |} |} /\
  exists s',
    step (DropRequest 0) (state_after example_done) = Some s' /\
    step (DropRequest 0) s' = None /\
    use_count (state_after example_done) = S (use_count s') /\
    pool (ucx s') !! 4096
      = Some {| Data.status := UCS_INPROGRESS; Data.info := RecvInfo.zero |} /\
    4096 ∈ allocated (ucx (state_after example_done)) /\
    (4096 ∉ allocated (ucx s')) /\
    freed (ucx (state_after example_done)) = [] /\
    freed (ucx s') = [4096].
Proof.
  assert (requests (state_after example_done) !! 0%nat
          = Some (request_on 4096)) as Hr by (vm_compute; reflexivity).
  split; [vm_compute; reflexivity|].
  destruct (request_destructor_releases_once (state_after example_done)
              0%nat (request_on 4096) (state_after_reachable _) Hr)
    as (s' & Hstep & _ & Hgone & Hcnt & _ & _ & _ & _ & _ & Hrec).
  destruct Hrec as (d & _ & Hheld & Hpool & Halloc & Hfreed & _).
  exists s'. split; [exact Hstep|]. split; [exact Hgone|].
  split; [exact Hcnt|]. split.
  { rewrite Hpool. apply lookup_insert_eq. }
  split; [exact Hheld|]. split.
  { rewrite Halloc. intros [_ Hne]%elem_of_difference.
    apply Hne, elem_of_singleton. reflexivity. }
  split; [vm_compute; reflexivity|]. exact Hfreed.
Defined.

Lemma worker_outlives_its_referents_example :
  use_count (state_after example_busy) = owners (state_after example_busy) /\
  (forall e ep, endpoints (state_after example_busy) !! e = Some ep ->
     live (ucx (state_after example_busy)) = true) /\
  (forall r rq, requests (state_after example_busy) !! r = Some rq ->
     live (ucx (state_after example_busy)) = true) /\
  (live (ucx (state_after example_busy)) = false <->
   handles (state_after example_busy) = O /\
   endpoints (state_after example_busy) = ∅ /\
   requests (state_after example_busy) = ∅).
Proof.
  exact (worker_outlives_its_referents (state_after example_busy)
           (state_after_reachable _)).
Defined.




(** * Further properties of the header *)

(** ** The two check macros *)

Lemma TORCH_UCX_CHECK_ok st msg :
  st = UCS_OK -> TORCH_UCX_CHECK st msg = Returns tt.
Proof. by intros ->. Qed.

Lemma TORCH_UCX_CHECK_fails st msg :
  st <> UCS_OK -> TORCH_UCX_CHECK st msg = Throws (UCXError st msg).
Proof.
  unfold TORCH_UCX_CHECK, TORCH_CHECK_WITH_UCXError. intros Hne.
  by destruct (Z.eqb_spec st UCS_OK).
Qed.

(** X1. Every status pointer falls in exactly one of three classes, and
    the two macros of the header tell them apart.  An address passes
    [TORCH_UCX_CHECK_PTR], and [TORCH_UCX_CHECK] of its status fails with
    [UCS_INPROGRESS].  A null word passes [TORCH_UCX_CHECK] of its status,
    and [TORCH_UCX_CHECK_PTR] fails on it with the status [UCS_OK].  An
    error word fails both, and both exceptions carry its status, which
    lies between [UCS_ERR_LAST] and -1. *)
Theorem ucx_checks_partition p msg :
  (UCS_PTR_IS_PTR p = true /\
   TORCH_UCX_CHECK_PTR p msg = Returns tt /\
   TORCH_UCX_CHECK (UCS_PTR_STATUS p) msg
     = Throws (UCXError UCS_INPROGRESS msg)) \/
  (uintptr p = 0 /\
   TORCH_UCX_CHECK (UCS_PTR_STATUS p) msg = Returns tt /\
   TORCH_UCX_CHECK_PTR p msg = Throws (UCXError UCS_OK msg)) \/
  (UCS_PTR_IS_ERR p = true /\
   UCS_ERR_LAST <= UCS_PTR_STATUS p < 0 /\
   TORCH_UCX_CHECK (UCS_PTR_STATUS p) msg
     = Throws (UCXError (UCS_PTR_STATUS p) msg) /\
   TORCH_UCX_CHECK_PTR p msg
     = Throws (UCXError (UCS_PTR_STATUS p) msg)).
Proof.
  destruct (UCS_PTR_IS_PTR p) eqn:Hp.
  - left. pose proof (UCS_PTR_STATUS_ptr _ Hp) as Hst.
    split; [done|]. split; [by apply TORCH_UCX_CHECK_PTR_ok|].
    by rewrite Hst.
  - right. destruct (UCS_PTR_STATUS_not_ptr p Hp) as [[H0 Hst]|[He Hst]].
    + left. split; [done|]. split; [by apply TORCH_UCX_CHECK_ok|].
      rewrite TORCH_UCX_CHECK_PTR_fails; by rewrite Hst.
    + right. split; [done|]. split; [done|].
      destruct (UCS_PTR_STATUS_err _ He) as [Hok Hin].
      split; [by apply TORCH_UCX_CHECK_fails|].
      by apply TORCH_UCX_CHECK_PTR_fails.
Qed.

(** ** The accessors of a Request *)

(** X2. [status] never throws, and the only exception of [info] is the
    internal assertion.  [info] throws only on a Request whose [status] is
    [UCS_OK]: whenever [status] returns anything else, in progress or an
    error, [info] returns the [info] field of the record whose status
    [status] returned. *)
Theorem info_throws_only_when_ok mem r :
  (forall e, UCPRequest.status mem r <> Throws e) /\
  (forall e, UCPRequest.info mem r = Throws e ->
     e = InternalAssert "data != nullptr" /\
     UCPRequest.data r = nullptr /\
     UCPRequest.status mem r = Returns UCS_OK) /\
  (forall st, UCPRequest.status mem r = Returns st -> st <> UCS_OK ->
     exists d, mem !! UCPRequest.data r = Some d /\
               Data.status d = st /\
               UCPRequest.info mem r = Returns (Data.info d)).
Proof.
  unfold UCPRequest.status, UCPRequest.info, TORCH_INTERNAL_ASSERT.
  destruct (Z.eqb_spec (UCPRequest.data r) nullptr) as [Hn|Hn]; simpl.
  - split; [done|]. split.
    + by intros e [= <-].
    + intros st [= <-] Hne. done.
  - destruct (mem !! UCPRequest.data r) as [d|]; (split; [done|]);
      (split; [done|]); [|done].
    intros st [= <-] _. by exists d.
Qed.

(** X3. The accessors read the backing record of their Request and
    nothing else: two memories that agree on that record give the same
    [status] and the same [info], so writing, resetting or removing any
    other record changes neither. *)
Theorem accessors_read_only_their_record mem mem' r :
  (UCPRequest.data r <> nullptr ->
   mem' !! UCPRequest.data r = mem !! UCPRequest.data r) ->
  UCPRequest.status mem' r = UCPRequest.status mem r /\
  UCPRequest.info mem' r = UCPRequest.info mem r.
Proof.
  intros Hsame. split; [by apply status_ext|].
  unfold UCPRequest.info, TORCH_INTERNAL_ASSERT.
  destruct (Z.eqb_spec (UCPRequest.data r) nullptr); [done|].
  simpl. by rewrite Hsame.
Qed.

(** X6. A pointer that passes [TORCH_UCX_CHECK_PTR] is not null, so a
    Request constructed on it is never taken for one that finished at
    submission: [status] and [info] read the record behind the pointer. *)
Theorem checked_pointer_backs_request p msg mem d w :
  TORCH_UCX_CHECK_PTR p msg = Returns tt -> mem !! p = Some d ->
  p <> nullptr /\
  UCPRequest.status mem {| UCPRequest.data := p; UCPRequest.worker := w |}
    = Returns (Data.status d) /\
  UCPRequest.info mem {| UCPRequest.data := p; UCPRequest.worker := w |}
    = Returns (Data.info d).
Proof.
  intros Hcheck Hd.
  assert (p <> nullptr) as Hn.
  { apply UCS_PTR_IS_PTR_not_null, UCS_PTR_STATUS_in_progress.
    destruct (decide (UCS_PTR_STATUS p = UCS_INPROGRESS)) as [|Hne]; [done|].
    by rewrite (TORCH_UCX_CHECK_PTR_fails _ _ Hne) in Hcheck. }
  split; [done|]. split.
  - by apply status_record.
  - by apply info_record.
Qed.

(** ** Requests and their records in the reachable states *)

(** X4. In every reachable state the accessors of a live Request are
    defined: its backing record, if it has one, is a record of the pool
    that has not been returned.  [status] returns a status, and [info]
    returns the record's info when there is a record and fails the
    internal assertion when there is none. *)
Theorem accessors_defined_on_live_requests s r rq :
  reachable s -> requests s !! r = Some rq ->
  (exists st, status_of s r = Some (Returns st)) /\
  (UCPRequest.data rq <> nullptr ->
   UCPRequest.data rq ∈ allocated (ucx s) /\
   exists d, pool (ucx s) !! UCPRequest.data rq = Some d /\
     status_of s r = Some (Returns (Data.status d)) /\
     info_of s r = Some (Returns (Data.info d))) /\
  (UCPRequest.data rq = nullptr ->
   status_of s r = Some (Returns UCS_OK) /\
   info_of s r = Some (Throws (InternalAssert "data != nullptr"))).
Proof.
  intros Hreach Hr.
  destruct (reachable_records _ Hreach) as (Hheld & Hback & _).
  assert (UCPRequest.data rq <> nullptr ->
          UCPRequest.data rq ∈ allocated (ucx s) /\
          exists d, pool (ucx s) !! UCPRequest.data rq = Some d /\
            status_of s r = Some (Returns (Data.status d)) /\
            info_of s r = Some (Returns (Data.info d))) as Hrec.
  { intros Hn. pose proof (Hheld _ _ Hr Hn) as Ha. split; [done|].
    destruct (Hback _ Ha) as (_ & [d Hd]%elem_of_dom & _).
    exists d. split; [done|]. unfold status_of, info_of. rewrite Hr. simpl.
    by rewrite (status_record _ _ _ Hn Hd), (info_record _ _ _ Hn Hd). }
  assert (UCPRequest.data rq = nullptr ->
          status_of s r = Some (Returns UCS_OK) /\
          info_of s r = Some (Throws (InternalAssert "data != nullptr")))
    as Hnull.
  { intros Hn. unfold status_of, info_of. rewrite Hr. simpl.
    by rewrite status_null, info_null. }
  split; [|by split].
  destruct (decide (UCPRequest.data rq = nullptr)) as [Hn|Hn].
  - destruct (Hnull Hn) as [-> _]. eauto.
  - destruct (Hrec Hn) as (_ & d & _ & -> & _). eauto.
Qed.

(** X5. In every reachable state the records the pool has handed out and
    not got back are exactly the backing records of the live Requests, no
    two live Requests share a backing record, and once no Request is alive
    every record is back in the pool. *)
Theorem records_owned_by_live_requests s :
  reachable s ->
  (forall p, p ∈ allocated (ucx s) <->
     p <> nullptr /\
     exists r rq, requests s !! r = Some rq /\ UCPRequest.data rq = p) /\
  (forall r1 r2 rq1 rq2,
     requests s !! r1 = Some rq1 -> requests s !! r2 = Some rq2 ->
     UCPRequest.data rq1 <> nullptr ->
     UCPRequest.data rq1 = UCPRequest.data rq2 -> r1 = r2) /\
  (requests s = ∅ -> allocated (ucx s) = ∅).
Proof.
  intros Hreach.
  destruct (reachable_records _ Hreach) as (Hheld & Hback & Huniq).
  split; [|split].
  - intros p. split.
    + intros Hp. destruct (Hback _ Hp) as (Hn & _ & Hex). by split.
    + intros (Hn & r & rq & Hr & <-). by apply (Hheld r).
  - intros r1 r2 rq1 rq2 Hr1 Hr2 Hn Heq. by apply (Huniq r1 r2 rq1 rq2).
  - intros Hempty. apply set_eq. intros p. split.
    + intros Hp. destruct (Hback _ Hp) as (_ & _ & r & rq & Hr & _).
      rewrite Hempty in Hr. by rewrite lookup_empty in Hr.
    + by intros ?%elem_of_empty.
Qed.

(** ** The further properties at concrete inputs *)

Lemma accessors_read_only_their_record_example :
  UCPRequest.status example_pool_other (request_on 4096)
    = UCPRequest.status example_pool (request_on 4096) /\
  UCPRequest.info example_pool_other (request_on 4096)
    = UCPRequest.info example_pool (request_on 4096).
Proof.
  apply (accessors_read_only_their_record example_pool example_pool_other
           (request_on 4096)).
  intros _. vm_compute. reflexivity.
Defined.

Lemma accessors_defined_on_live_requests_example :
  exists d,
    pool (ucx (state_after example_busy)) !! 4096 = Some d /\
    status_of (state_after example_busy) 0
      = Some (Returns (Data.status d)) /\
    info_of (state_after example_busy) 0 = Some (Returns (Data.info d)).
Proof.
  assert (requests (state_after example_busy) !! 0%nat
          = Some (request_on 4096)) as Hr by (vm_compute; reflexivity).
  assert (UCPRequest.data (request_on 4096) <> nullptr) as Hn
    by (vm_compute; discriminate).
  destruct (accessors_defined_on_live_requests (state_after example_busy)
              0%nat (request_on 4096) (state_after_reachable _) Hr)
    as (_ & H & _).
  exact (proj2 (H Hn)).
Defined.

Lemma records_owned_by_live_requests_example :
  4096 ∈ allocated (ucx (state_after example_busy)) <->
  4096 <> nullptr /\
  exists r rq, requests (state_after example_busy) !! r = Some rq /\
               UCPRequest.data rq = 4096.
Proof.
  exact (proj1 (records_owned_by_live_requests (state_after example_busy)
                  (state_after_reachable _)) 4096).
Defined.

Lemma checked_pointer_backs_request_example :
  UCPRequest.status example_pool (request_on 4096) = Returns UCS_INPROGRESS /\
  UCPRequest.info example_pool (request_on 4096) = Returns RecvInfo.zero.
Proof.
  assert (TORCH_UCX_CHECK_PTR 4096 "failed to submit request" = Returns tt)
    as Hc by (vm_compute; reflexivity).
  assert (example_pool !! 4096
          = Some {| Data.status := UCS_INPROGRESS;
                    Data.info := RecvInfo.zero |}) as Hd
    by (vm_compute; reflexivity).
  destruct (checked_pointer_backs_request 4096 "failed to submit request"
              example_pool _ shared_from_this Hc Hd) as (_ & Hs & Hi).
  by split.
Defined.
